(** * The per-user project watcher of pkg/project/auth/watch.go

    A shallow embedding of [userProjectWatcher]: the intake handler
    [GroupMembershipChanged], the relay goroutine [Watch], [Stop] and the
    constructor [NewUserProjectWatcher], together with the Go channel
    operations they use.  The goroutines are interleaved by an explicit
    schedule; every [select] with several ready arms is resolved by the
    schedule, as the Go runtime may pick any of them. *)

From stdpp Require Import base option list gmap strings.

(** ** Go channels *)

Module Chan.

(** A channel is its buffer (oldest value first), its capacity as given to
    [make] and whether it has been closed. *)
Record t (A : Type) : Type := Make {
  buf : list A;
  cap : nat;
  closed : bool
}.
Arguments Make {A} _ _ _.
Arguments buf {A} _.
Arguments cap {A} _.
Arguments closed {A} _.

Section Ops.
Context {A : Type}.

(** [make(chan A, n)] *)
Definition make (n : nat) : t A := Make [] n false.

(** [len(ch)] *)
Definition len (ch : t A) : nat := length (buf ch).

(** The arm [case ch <- v:] of a [select]: it can proceed only when the
    buffer has room. *)
Definition try_send (ch : t A) (v : A) : option (t A) :=
  if decide (len ch < cap ch)
  then Some (Make (buf ch ++ [v]) (cap ch) (closed ch))
  else None.

(** The arm [case v := <-ch:] of a [select] on a channel that is never
    closed: it can proceed only when a value is buffered. *)
Definition try_recv (ch : t A) : option (A * t A) :=
  match buf ch with
  | [] => None
  | v :: rest => Some (v, Make rest (cap ch) (closed ch))
  end.

(** [close(ch)]; closing a closed channel panics ([None]). *)
Definition close (ch : t A) : option (t A) :=
  if closed ch then None else Some (Make (buf ch) (cap ch) true).
End Ops.

End Chan.

(** ** Data *)

(** [kapi.Namespace]: the name and, standing for the rest of the object, its
    resource version. *)
Record Namespace : Type := mkNamespace {
  Name : string;
  ResourceVersion : string
}.

(** [kapi.NamespaceList] *)
Record NamespaceList : Type := mkNamespaceList {
  Items : list Namespace
}.

(** [watch.EventType] *)
Inductive EventType : Type := Added | Modified | Deleted | Error.

(** The objects carried by events: the project made from a namespace by
    [projectutil.ConvertNamespace] and the [unversioned.Status] of
    [makeErrorEvent] (its status is always [StatusFailure]). *)
Inductive Object : Type :=
| Project (ns : Namespace)
| StatusFailure (message : string).

(** [watch.Event] *)
Record Event : Type := mkEvent {
  Type_ : EventType;
  Object_ : Object
}.

#[global] Instance EventType_eq_dec : EqDecision EventType.
Proof. solve_decision. Defined.
#[global] Instance Namespace_eq_dec : EqDecision Namespace.
Proof. solve_decision. Defined.
#[global] Instance Object_eq_dec : EqDecision Object.
Proof. solve_decision. Defined.
#[global] Instance Event_eq_dec : EqDecision Event.
Proof. solve_decision. Defined.

(** Modelled from the spec: [projectutil.ConvertNamespace] is not part of the
    sources at hand; it turns a namespace into the project that represents it,
    which is kept here as the namespace under the [Project] constructor. *)
Definition ConvertNamespace (ns : Namespace) : Object := Project ns.

Definition makeErrorEvent (err : string) : Event :=
  {| Type_ := Error; Object_ := StatusFailure err |}.

(** ** [sets.String] *)

Definition Has (s : gset string) (item : string) : bool :=
  bool_decide (item ∈ s).

Definition HasAny (s : gset string) (items : list string) : bool :=
  existsb (Has s) items.

Definition Insert (s : gset string) (item : string) : gset string :=
  {[ item ]} ∪ s.

Definition Delete (s : gset string) (item : string) : gset string :=
  s ∖ {[ item ]}.

(** ** The watcher *)

(** The fields of [userProjectWatcher] that hold data.  [emit] is fixed by
    the constructor and appears in the relay loop below; [stopLock] makes
    [Stop] atomic; [projectCache] and [authCache] point to objects shared with
    the rest of the server, whose state is kept in [World]. *)
Record userProjectWatcher : Type := mkWatcher {
  username : string;
  groups : list string;
  cacheIncoming : Chan.t Event;
  cacheError : Chan.t string;
  outgoing : Chan.t Event;
  userStop : Chan.t unit;
  initialProjects : list Namespace;
  knownProjects : gset string
}.

Definition set_cacheIncoming (ch : Chan.t Event) (w : userProjectWatcher) :=
  mkWatcher (username w) (groups w) ch (cacheError w) (outgoing w)
            (userStop w) (initialProjects w) (knownProjects w).

Definition set_cacheError (ch : Chan.t string) (w : userProjectWatcher) :=
  mkWatcher (username w) (groups w) (cacheIncoming w) ch (outgoing w)
            (userStop w) (initialProjects w) (knownProjects w).

Definition set_outgoing (ch : Chan.t Event) (w : userProjectWatcher) :=
  mkWatcher (username w) (groups w) (cacheIncoming w) (cacheError w) ch
            (userStop w) (initialProjects w) (knownProjects w).

Definition set_userStop (ch : Chan.t unit) (w : userProjectWatcher) :=
  mkWatcher (username w) (groups w) (cacheIncoming w) (cacheError w)
            (outgoing w) ch (initialProjects w) (knownProjects w).

Definition set_knownProjects (k : gset string) (w : userProjectWatcher) :=
  mkWatcher (username w) (groups w) (cacheIncoming w) (cacheError w)
            (outgoing w) (userStop w) (initialProjects w) k.

(** Who called [authCache.RemoveWatcher]. *)
Inductive Caller : Type := ByIntake | ByRelay.

(** What the watcher does to its surroundings, in the order it happens. *)
Inductive Obs : Type :=
| ObsEnqueue (e : Event)         (* [w.cacheIncoming <- e] went through *)
| ObsRemoveWatcher (c : Caller)  (* [w.authCache.RemoveWatcher(w)] *)
| ObsCacheError (msg : string)   (* [w.cacheError <- err] went through *)
| ObsDeliver (e : Event)         (* the consumer received [e] from [outgoing] *)
| ObsCloseOutgoing.              (* [close(w.outgoing)] *)

#[global] Instance Caller_eq_dec : EqDecision Caller.
Proof. solve_decision. Defined.
#[global] Instance Obs_eq_dec : EqDecision Obs.
Proof. solve_decision. Defined.

(** Where the goroutine running [Watch] stands. *)
Inductive RelayPC : Type :=
| AtInitial (i : nat)              (* top of the body of the loop over [initialProjects] *)
| Emitting (e : Event) (k : RelayPC) (* inside [w.emit(e)], then on to [k] *)
| AtSelect                         (* at the [select] of the second loop *)
| DeferRemove                      (* returning: deferred [RemoveWatcher] is next *)
| DeferClose                       (* returning: deferred [close(w.outgoing)] is next *)
| Exited.

(** The dispatcher thread: idle, or stuck in [w.cacheError <- err] because
    the one slot of [cacheError] is taken. *)
Inductive DispatcherPC : Type :=
| Idle
| BlockedOnCacheError (msg : string).

(** The watcher with the state it shares with its surroundings. *)
Record World : Type := mkWorld {
  watcher : userProjectWatcher;
  (** [projectCache]: the namespaces the lookup can resolve *)
  projectCache : gmap string Namespace;
  (** [authCache]: does it still hold this watcher? *)
  watching : bool;
  relay : RelayPC;
  dispatcher : DispatcherPC;
  (** the package variable [watchChannelHWM] *)
  watchChannelHWM : nat;
  trace : list Obs
}.

Definition with_watcher (f : userProjectWatcher → userProjectWatcher) (s : World) :=
  mkWorld (f (watcher s)) (projectCache s) (watching s) (relay s)
          (dispatcher s) (watchChannelHWM s) (trace s).

Definition set_projectCache (m : gmap string Namespace) (s : World) :=
  mkWorld (watcher s) m (watching s) (relay s)
          (dispatcher s) (watchChannelHWM s) (trace s).

Definition set_watching (b : bool) (s : World) :=
  mkWorld (watcher s) (projectCache s) b (relay s)
          (dispatcher s) (watchChannelHWM s) (trace s).

Definition set_relay (pc : RelayPC) (s : World) :=
  mkWorld (watcher s) (projectCache s) (watching s) pc
          (dispatcher s) (watchChannelHWM s) (trace s).

Definition set_dispatcher (d : DispatcherPC) (s : World) :=
  mkWorld (watcher s) (projectCache s) (watching s) (relay s)
          d (watchChannelHWM s) (trace s).

Definition set_watchChannelHWM (n : nat) (s : World) :=
  mkWorld (watcher s) (projectCache s) (watching s) (relay s)
          (dispatcher s) n (trace s).

Definition log (o : Obs) (s : World) :=
  mkWorld (watcher s) (projectCache s) (watching s) (relay s)
          (dispatcher s) (watchChannelHWM s) (trace s ++ [o]).

(** ** Collaborators *)

(** Modelled from the spec: [ProjectCache.GetNamespace] is not part of the
    sources at hand; it resolves a name to the namespace held for it or fails
    with a not-found error ([None]). *)
Definition GetNamespace (cache : gmap string Namespace) (name : string)
  : option Namespace := cache !! name.

(** Modelled from the spec: the [RemoveWatcher] of the membership cache is not
    part of the sources at hand; it drops the watcher from the set the cache
    notifies and tolerates being called again. *)
Definition RemoveWatcher (c : Caller) (s : World) : World :=
  log (ObsRemoveWatcher c) (set_watching false s).

(** [w.cacheError <- err]: goes through when the slot is free, otherwise the
    calling thread stays blocked in the send. *)
Definition send_cacheError (msg : string) (s : World) : World :=
  match Chan.try_send (cacheError (watcher s)) msg with
  | Some ch => log (ObsCacheError msg) (with_watcher (set_cacheError ch) s)
  | None => set_dispatcher (BlockedOnCacheError msg) s
  end.

(** ** The intake handler *)

Definition hasAccess (w : userProjectWatcher)
    (latestUsers lastestGroups : gset string) : bool :=
  Has latestUsers (username w) || HasAny lastestGroups (groups w).

Definition removed (w : userProjectWatcher)
    (latestUsers lastestGroups removedUsers removedGroups : gset string) : bool :=
  negb (hasAccess w latestUsers lastestGroups)
  && (Has removedUsers (username w) || HasAny removedGroups (groups w)).

(** The [select] with a [default] arm that both branches of the handler end
    with: hand [e] to [cacheIncoming] if there is room, otherwise remove the
    watcher from the cache and leave [msg] in [cacheError]. *)
Definition enqueue_or_fail (e : Event) (msg : string) (s : World) : World :=
  match Chan.try_send (cacheIncoming (watcher s)) e with
  | Some ch => log (ObsEnqueue e) (with_watcher (set_cacheIncoming ch) s)
  | None => send_cacheError msg (RemoveWatcher ByIntake s)
  end.

Definition GroupMembershipChanged (s : World) (namespaceName : string)
    (latestUsers lastestGroups removedUsers removedGroups
     addedUsers addedGroups : gset string) : World :=
  let w := watcher s in
  if removed w latestUsers lastestGroups removedUsers removedGroups then
    if negb (Has (knownProjects w) namespaceName) then s
    else
      let s1 := with_watcher
                  (set_knownProjects (Delete (knownProjects w) namespaceName)) s in
      enqueue_or_fail
        {| Type_ := Deleted;
           Object_ := ConvertNamespace (mkNamespace namespaceName EmptyString) |}
        "delete notification timeout"%string s1
  else if hasAccess w latestUsers lastestGroups then
    match GetNamespace (projectCache s) namespaceName with
    | None => s
    | Some namespace =>
        let event :=
          {| Type_ := if Has (knownProjects w) namespaceName
                      then Modified else Added;
             Object_ := ConvertNamespace namespace |} in
        let s1 := with_watcher
                    (set_knownProjects (Insert (knownProjects w) (Name namespace))) s in
        enqueue_or_fail event "add notification timeout"%string s1
    end
  else s.

(** ** The constructor *)

(** [WatchableCache.List]: the namespace list may be a nil pointer ([None]),
    and an error may come with it. *)
Record WatchableCache : Type := mkWatchableCache {
  List : string → list string → option NamespaceList * option string
}.

(** [NewUserProjectWatcher].  The error of [List] is dropped and the list is
    dereferenced, which panics ([None]) on a nil pointer.  The two cache
    pointers the constructor stores are kept in [World], see [spawn]. *)
Definition NewUserProjectWatcher (username : string) (groups : list string)
    (authCache : WatchableCache) (includeAllExistingProjects : bool)
  : option userProjectWatcher :=
  let '(namespaces, _) := List authCache username groups in
  match namespaces with
  | None => None
  | Some namespaces =>
      let knownProjects :=
        foldl (λ known namespace, Insert known (Name namespace)) ∅
              (Items namespaces) in
      let initialProjects :=
        if includeAllExistingProjects then [] ++ Items namespaces else [] in
      Some {| username := username;
              groups := groups;
              cacheIncoming := Chan.make 1000;
              cacheError := Chan.make 1;
              outgoing := Chan.make 0;
              userStop := Chan.make 0;
              initialProjects := initialProjects;
              knownProjects := knownProjects |}
  end.

(** The watcher once it is registered with the membership cache and
    [go w.Watch()] has been issued. *)
Definition spawn (w : userProjectWatcher) (cache : gmap string Namespace) : World :=
  {| watcher := w;
     projectCache := cache;
     watching := true;
     relay := AtInitial 0;
     dispatcher := Idle;
     watchChannelHWM := 0;
     trace := [] |}.

(** ** [Stop] *)

(** The body of [Stop], atomic because of [stopLock]. *)
Definition Stop (s : World) : option World :=
  let w := watcher s in
  if Chan.closed (userStop w) then Some s
  else ch ← Chan.close (userStop w); Some (with_watcher (set_userStop ch) s).

(** ** The relay loop [Watch] *)

(** The arms a [select] of the relay goroutine can take. *)
Inductive Arm : Type :=
| ArmSend       (* [case w.outgoing <- e:], a consumer is receiving *)
| ArmStop       (* [case <-w.userStop:] *)
| ArmError      (* [case err := <-w.cacheError:] *)
| ArmIncoming.  (* [case event := <-w.cacheIncoming:] *)

(** [err := <-w.cacheError], if a value is there.  A sender blocked on the
    full slot then completes its send. *)
Definition recv_cacheError (s : World) : option (string * World) :=
  match Chan.try_recv (cacheError (watcher s)) with
  | None => None
  | Some (err, ch) =>
      let s1 := with_watcher (set_cacheError ch) s in
      match dispatcher s1 with
      | Idle => Some (err, s1)
      | BlockedOnCacheError msg =>
          Some (err, send_cacheError msg (set_dispatcher Idle s1))
      end
  end.

(** [w.emit(e)]: the send to the unbuffered [outgoing] or the closed
    [userStop], whichever the schedule picks among the ready ones. *)
Definition emit (arm : Arm) (e : Event) (s : World) : option World :=
  match arm with
  | ArmSend =>
      if Chan.closed (outgoing (watcher s)) then None
      else Some (log (ObsDeliver e) s)
  | ArmStop =>
      if Chan.closed (userStop (watcher s)) then Some s else None
  | _ => None
  end.

(** Modelled from the spec: [etcd.HighWaterMark.Update] is not part of the
    sources at hand; it keeps the maximum seen and tells whether the value
    given is a new maximum. *)
Definition HighWaterMark_Update (hwm current : nat) : nat * bool :=
  if decide (hwm < current) then (current, true) else (hwm, false).

(** One step of the goroutine running [Watch]; [None] when it cannot move. *)
Definition Watch_step (arm : Arm) (s : World) : option World :=
  let w := watcher s in
  match relay s with
  | AtInitial i =>
      match initialProjects w !! i with
      | None => Some (set_relay AtSelect s)
      | Some namespace =>
          match recv_cacheError s with
          | Some (err, s1) =>
              Some (set_relay (Emitting (makeErrorEvent err) DeferRemove) s1)
          | None =>
              Some (set_relay
                      (Emitting {| Type_ := Added;
                                   Object_ := ConvertNamespace namespace |}
                                (AtInitial (S i))) s)
          end
      end
  | Emitting e k => s1 ← emit arm e s; Some (set_relay k s1)
  | AtSelect =>
      match arm with
      | ArmError =>
          '(err, s1) ← recv_cacheError s;
          Some (set_relay (Emitting (makeErrorEvent err) DeferRemove) s1)
      | ArmStop =>
          if Chan.closed (userStop w) then Some (set_relay DeferRemove s)
          else None
      | ArmIncoming =>
          '(event, ch) ← Chan.try_recv (cacheIncoming w);
          let s1 := with_watcher (set_cacheIncoming ch) s in
          let curLen := Chan.len ch in
          let s2 := set_watchChannelHWM
                      (fst (HighWaterMark_Update (watchChannelHWM s1) curLen)) s1 in
          Some (set_relay (Emitting event AtSelect) s2)
      | ArmSend => None
      end
  | DeferRemove => Some (set_relay DeferClose (RemoveWatcher ByRelay s))
  | DeferClose =>
      ch ← Chan.close (outgoing w);
      Some (set_relay Exited
              (log ObsCloseOutgoing (with_watcher (set_outgoing ch) s)))
  | Exited => None
  end.

(** ** Schedules *)

(** A change as the membership cache announces it. *)
Record Change : Type := mkChange {
  namespaceName : string;
  latestUsers : gset string;
  latestGroups : gset string;
  removedUsers : gset string;
  removedGroups : gset string;
  addedUsers : gset string;
  addedGroups : gset string
}.

Definition handle (s : World) (c : Change) : World :=
  GroupMembershipChanged s (namespaceName c) (latestUsers c) (latestGroups c)
    (removedUsers c) (removedGroups c) (addedUsers c) (addedGroups c).

Inductive Action : Type :=
| Notify (c : Change)     (* the cache calls the handler of a watcher it holds *)
| CallStop                (* somebody calls [Stop] *)
| Relay (arm : Arm)       (* the relay goroutine moves *)
| CacheUpdate (m : gmap string Namespace). (* the project cache changes *)

Definition step (a : Action) (s : World) : option World :=
  match a with
  | Notify c =>
      match watching s, dispatcher s with
      | true, Idle => Some (handle s c)
      | _, _ => None
      end
  | CallStop => Stop s
  | Relay arm => Watch_step arm s
  | CacheUpdate m => Some (set_projectCache m s)
  end.

Fixpoint run (sched : list Action) (s : World) : option World :=
  match sched with
  | [] => Some s
  | a :: rest => s1 ← step a s; run rest s1
  end.

(** ** What a trace shows *)

(** The events the consumer received, oldest first. *)
Definition received (tr : list Obs) : list Event :=
  omap (λ o, match o with ObsDeliver e => Some e | _ => None end) tr.

(** The events the handler put into [cacheIncoming], oldest first. *)
Definition enqueued (tr : list Obs) : list Event :=
  omap (λ o, match o with ObsEnqueue e => Some e | _ => None end) tr.

(** The errors left in [cacheError]. *)
Definition recorded (tr : list Obs) : list string :=
  omap (λ o, match o with ObsCacheError m => Some m | _ => None end) tr.

Fixpoint count (f : Obs → bool) (tr : list Obs) : nat :=
  match tr with
  | [] => 0
  | o :: rest => (if f o then 1 else 0) + count f rest
  end.

Definition is_removal (c : Caller) (o : Obs) : bool :=
  match o, c with
  | ObsRemoveWatcher ByIntake, ByIntake => true
  | ObsRemoveWatcher ByRelay, ByRelay => true
  | _, _ => false
  end.

Definition is_closing (o : Obs) : bool :=
  match o with ObsCloseOutgoing => true | _ => false end.

(** How often [RemoveWatcher] was called by [c]. *)
Definition removals (c : Caller) (tr : list Obs) : nat :=
  count (is_removal c) tr.

(** How often [outgoing] was closed. *)
Definition closings (tr : list Obs) : nat := count is_closing tr.

(** ** Facts about sets and channels *)

Lemma Has_true (s : gset string) (x : string) : Has s x = true ↔ x ∈ s.
Proof. unfold Has. apply bool_decide_eq_true. Qed.

Lemma Has_false (s : gset string) (x : string) : Has s x = false ↔ x ∉ s.
Proof. unfold Has. apply bool_decide_eq_false. Qed.

Lemma HasAny_true (s : gset string) (items : list string) :
  HasAny s items = true ↔ ∃ g, g ∈ items ∧ g ∈ s.
Proof.
  unfold HasAny. rewrite existsb_exists. split.
  - intros (g & Hin & Hg). exists g. split; [by apply list_elem_of_In | by apply Has_true].
  - intros (g & Hin & Hg). exists g. split; [by apply list_elem_of_In | by apply Has_true].
Qed.

Lemma try_send_room {A} (ch : Chan.t A) (v : A) :
  Chan.len ch < Chan.cap ch →
  Chan.try_send ch v = Some (Chan.Make (Chan.buf ch ++ [v]) (Chan.cap ch) (Chan.closed ch)).
Proof. intros H. unfold Chan.try_send. by rewrite decide_True. Qed.

Lemma try_send_full {A} (ch : Chan.t A) (v : A) :
  ¬ Chan.len ch < Chan.cap ch → Chan.try_send ch v = None.
Proof. intros H. unfold Chan.try_send. by rewrite decide_False. Qed.

Lemma count_app (f : Obs → bool) (t1 t2 : list Obs) :
  count f (t1 ++ t2) = count f t1 + count f t2.
Proof. induction t1 as [|o t1 IH]; simpl; [done|]. rewrite IH. lia. Qed.

Lemma removals_snoc (c : Caller) (tr : list Obs) (o : Obs) :
  removals c (tr ++ [o]) = removals c tr + (if is_removal c o then 1 else 0).
Proof. unfold removals. rewrite count_app. simpl. lia. Qed.

Lemma closings_snoc (tr : list Obs) (o : Obs) :
  closings (tr ++ [o]) = closings tr + (if is_closing o then 1 else 0).
Proof. unfold closings. rewrite count_app. simpl. lia. Qed.

Lemma received_snoc (tr : list Obs) (o : Obs) :
  received (tr ++ [o])
  = received tr ++ match o with ObsDeliver e => [e] | _ => [] end.
Proof. unfold received. rewrite omap_app. by destruct o. Qed.

Lemma enqueued_snoc (tr : list Obs) (o : Obs) :
  enqueued (tr ++ [o])
  = enqueued tr ++ match o with ObsEnqueue e => [e] | _ => [] end.
Proof. unfold enqueued. rewrite omap_app. by destruct o. Qed.

Lemma recorded_snoc (tr : list Obs) (o : Obs) :
  recorded (tr ++ [o])
  = recorded tr ++ match o with ObsCacheError m => [m] | _ => [] end.
Proof. unfold recorded. rewrite omap_app. by destruct o. Qed.

Create Rewrite HintDb trace.
#[local] Hint Rewrite removals_snoc closings_snoc received_snoc enqueued_snoc
  recorded_snoc @app_nil_r : trace.

(** ** The intake handler, call by call *)

(** C1: [hasAccess] and [removed] are the two membership tests of the handler;
    a change that is neither leaves the world as it was; a change with access
    whose lookup succeeds inserts the name of the namespace found into
    [knownProjects] and, when [cacheIncoming] has room, appends one event to
    it, [Modified] if the name announced was known and [Added] otherwise. *)
Theorem GroupMembershipChanged_spec (s : World) (namespaceName : string)
    (latestUsers lastestGroups removedUsers removedGroups
     addedUsers addedGroups : gset string) :
  let w := watcher s in
  let s' := GroupMembershipChanged s namespaceName latestUsers lastestGroups
              removedUsers removedGroups addedUsers addedGroups in
  let access := hasAccess w latestUsers lastestGroups in
  let gone := removed w latestUsers lastestGroups removedUsers removedGroups in
  (access = true ↔
     username w ∈ latestUsers ∨ ∃ g, g ∈ groups w ∧ g ∈ lastestGroups)
  ∧ (gone = true ↔
       access = false
       ∧ (username w ∈ removedUsers ∨ ∃ g, g ∈ groups w ∧ g ∈ removedGroups))
  ∧ (access = false → gone = false → s' = s)
  ∧ (∀ namespace,
       access = true →
       GetNamespace (projectCache s) namespaceName = Some namespace →
       let event :=
         {| Type_ := if bool_decide (namespaceName ∈ knownProjects w)
                     then Modified else Added;
            Object_ := ConvertNamespace namespace |} in
       knownProjects (watcher s') = {[ Name namespace ]} ∪ knownProjects w
       ∧ (Name namespace = namespaceName →
          namespaceName ∈ knownProjects (watcher s'))
       ∧ (Chan.len (cacheIncoming w) < Chan.cap (cacheIncoming w) →
          Chan.buf (cacheIncoming (watcher s'))
            = Chan.buf (cacheIncoming w) ++ [event]
          ∧ trace s' = trace s ++ [ObsEnqueue event])).
Proof.
  intros w s' access gone.
  assert (Hacc : access = true ↔
     username w ∈ latestUsers ∨ ∃ g, g ∈ groups w ∧ g ∈ lastestGroups).
  { unfold access, hasAccess. rewrite orb_true_iff, Has_true, HasAny_true. done. }
  assert (Hgone : gone = true ↔
       access = false
       ∧ (username w ∈ removedUsers ∨ ∃ g, g ∈ groups w ∧ g ∈ removedGroups)).
  { unfold gone, removed. fold access.
    rewrite andb_true_iff, negb_true_iff, orb_true_iff, Has_true, HasAny_true. done. }
  split; [exact Hacc|]. split; [exact Hgone|]. split.
  - intros Ha Hg. unfold s', GroupMembershipChanged. fold w. fold gone. fold access.
    by rewrite Hg, Ha.
  - intros namespace Ha Hget event.
    assert (Hg : gone = false).
    { unfold gone, removed. fold access. by rewrite Ha. }
    assert (Hs' : s' = enqueue_or_fail event "add notification timeout"
              (with_watcher
                 (set_knownProjects (Insert (knownProjects w) (Name namespace))) s)).
    { unfold s', GroupMembershipChanged. fold w. fold gone. fold access.
      by rewrite Hg, Ha, Hget. }
    assert (Hk : knownProjects (watcher s') = {[ Name namespace ]} ∪ knownProjects w).
    { rewrite Hs'. unfold enqueue_or_fail, send_cacheError. simpl.
      repeat case_match; reflexivity. }
    split; [exact Hk|]. split.
    + intros Hn. rewrite Hk. apply elem_of_union_l, elem_of_singleton. done.
    + intros Hroom. rewrite Hs'. unfold enqueue_or_fail. simpl.
      rewrite try_send_room by exact Hroom. simpl. done.
Qed.

(** The witness of [GroupMembershipChanged_spec]: user alice is granted
    access to namespace a, which the project cache resolves. *)
Lemma GroupMembershipChanged_spec_witness :
  let w := mkWatcher "alice"%string ["dev"%string] (Chan.make 2) (Chan.make 1)
                     (Chan.make 0) (Chan.make 0) [] ∅ in
  let a := mkNamespace "a"%string "7"%string in
  let s := spawn w {[ "a"%string := a ]} in
  let s' := GroupMembershipChanged s "a"%string {[ "alice"%string ]} ∅ ∅ ∅ ∅ ∅ in
  knownProjects (watcher s') = {[ "a"%string ]} ∪ ∅
  ∧ Chan.buf (cacheIncoming (watcher s'))
    = [ {| Type_ := Added; Object_ := ConvertNamespace a |} ].
Proof.
  intros w a s s'.
  destruct (GroupMembershipChanged_spec s "a"%string {[ "alice"%string ]} ∅ ∅ ∅ ∅ ∅)
    as (_ & _ & _ & H).
  destruct (H a) as (Hk & _ & Hroom).
  - vm_compute. reflexivity.
  - vm_compute. reflexivity.
  - split; [exact Hk|]. destruct Hroom as [Hb _].
    + vm_compute. lia.
    + exact Hb.
Defined.

(** C8: a change with access whose lookup fails leaves the whole world as it
    was: nothing is enqueued, [knownProjects] and [cacheIncoming] keep their
    contents, no error is recorded and the watcher stays with the cache. *)
Theorem lookup_failure_is_skipped (s : World) (namespaceName : string)
    (latestUsers lastestGroups removedUsers removedGroups
     addedUsers addedGroups : gset string) :
  hasAccess (watcher s) latestUsers lastestGroups = true →
  GetNamespace (projectCache s) namespaceName = None →
  GroupMembershipChanged s namespaceName latestUsers lastestGroups
    removedUsers removedGroups addedUsers addedGroups = s.
Proof.
  intros Ha Hget. unfold GroupMembershipChanged, removed.
  by rewrite Ha, Hget.
Qed.

Lemma lookup_failure_is_skipped_witness :
  let w := mkWatcher "alice"%string ["dev"%string] (Chan.make 2) (Chan.make 1)
                     (Chan.make 0) (Chan.make 0) [] ∅ in
  let s := spawn w ∅ in
  GroupMembershipChanged s "a"%string ∅ {[ "dev"%string ]} ∅ ∅ ∅ ∅ = s.
Proof.
  intros w s. apply lookup_failure_is_skipped.
  - vm_compute. reflexivity.
  - vm_compute. reflexivity.
Defined.

(** C9: a removal for a name that is not in [knownProjects] leaves the whole
    world as it was: no event, and [knownProjects], [cacheIncoming],
    [cacheError] and the registration with the cache unchanged. *)
Theorem unknown_removal_is_noop (s : World) (namespaceName : string)
    (latestUsers lastestGroups removedUsers removedGroups
     addedUsers addedGroups : gset string) :
  removed (watcher s) latestUsers lastestGroups removedUsers removedGroups = true →
  namespaceName ∉ knownProjects (watcher s) →
  GroupMembershipChanged s namespaceName latestUsers lastestGroups
    removedUsers removedGroups addedUsers addedGroups = s.
Proof.
  intros Hr Hn. unfold GroupMembershipChanged. rewrite Hr.
  apply Has_false in Hn. by rewrite Hn.
Qed.

Lemma unknown_removal_is_noop_witness :
  let w := mkWatcher "alice"%string ["dev"%string] (Chan.make 2) (Chan.make 1)
                     (Chan.make 0) (Chan.make 0) [] {[ "b"%string ]} in
  let s := spawn w ∅ in
  GroupMembershipChanged s "a"%string ∅ ∅ {[ "alice"%string ]} ∅ ∅ ∅ = s.
Proof.
  intros w s. apply unknown_removal_is_noop.
  - vm_compute. reflexivity.
  - apply Has_false. vm_compute. reflexivity.
Defined.

(** ** The constructor *)

Lemma foldl_Insert_names (items : list Namespace) (known : gset string) :
  foldl (λ known namespace, Insert known (Name namespace)) known items
  = list_to_set (Name <$> items) ∪ known.
Proof.
  revert known. induction items as [|ns items IH]; intros known; simpl.
  - by rewrite (left_id_L ∅ (∪)).
  - rewrite IH. unfold Insert.
    rewrite (assoc_L (∪)). f_equal. apply (comm_L (∪)).
Qed.

(** C10: the constructor drops the error of [List]; when [List] hands back a
    list, [knownProjects] is the set of the names in it and [initialProjects]
    is that list if [includeAllExistingProjects] is set and empty otherwise;
    when [List] hands back a nil list, the constructor panics. *)
Theorem NewUserProjectWatcher_spec (username : string) (groups : list string)
    (authCache : WatchableCache) (includeAllExistingProjects : bool) :
  (∀ namespaces err,
     List authCache username groups = (Some namespaces, err) →
     ∃ w, NewUserProjectWatcher username groups authCache
            includeAllExistingProjects = Some w
          ∧ knownProjects w = list_to_set (Name <$> Items namespaces)
          ∧ (∀ n, n ∈ knownProjects w ↔
                  ∃ ns, ns ∈ Items namespaces ∧ Name ns = n)
          ∧ initialProjects w
            = (if includeAllExistingProjects then Items namespaces else []))
  ∧ (∀ err,
       List authCache username groups = (None, err) →
       NewUserProjectWatcher username groups authCache
         includeAllExistingProjects = None).
Proof.
  split.
  - intros namespaces err HList. unfold NewUserProjectWatcher. rewrite HList.
    eexists. split; [reflexivity|]. simpl.
    rewrite foldl_Insert_names, (right_id_L ∅ (∪)).
    split; [reflexivity|]. split; [|reflexivity].
    intros n. rewrite elem_of_list_to_set, list_elem_of_fmap.
    split; intros (ns & H1 & H2); exists ns; done.
  - intros err HList. unfold NewUserProjectWatcher. by rewrite HList.
Qed.

(** The witness of [NewUserProjectWatcher_spec]: [List] hands back two
    namespaces together with an error. *)
Lemma NewUserProjectWatcher_spec_witness :
  let items := [mkNamespace "a"%string "1"%string; mkNamespace "b"%string "2"%string] in
  let authCache :=
    mkWatchableCache (λ _ _, (Some (mkNamespaceList items), Some "stale"%string)) in
  ∃ w, NewUserProjectWatcher "alice"%string [] authCache true = Some w
       ∧ knownProjects w = list_to_set (Name <$> items)
       ∧ initialProjects w = items.
Proof.
  intros items authCache.
  destruct (NewUserProjectWatcher_spec "alice"%string [] authCache true) as [H _].
  destruct (H (mkNamespaceList items) (Some "stale"%string)) as (w & Hw & Hk & _ & Hi).
  - reflexivity.
  - exists w. split; [exact Hw|]. split; [exact Hk | exact Hi].
Defined.

(** ** [Stop] *)

(** [Stop] called [n] times in a row; [None] if one of the calls panics. *)
Fixpoint Stop_times (n : nat) (s : World) : option World :=
  match n with
  | 0 => Some s
  | S n => s1 ← Stop s; Stop_times n s1
  end.

Definition stopped (s : World) : bool := Chan.closed (userStop (watcher s)).

Lemma Stop_closes (s : World) :
  ∃ s1, Stop s = Some s1 ∧ stopped s1 = true.
Proof.
  unfold Stop, stopped, Chan.close.
  destruct (Chan.closed (userStop (watcher s))) eqn:Hc; simpl.
  - exists s. done.
  - eexists. split; [reflexivity|]. reflexivity.
Qed.

Lemma Stop_stopped (s : World) : stopped s = true → Stop s = Some s.
Proof. unfold Stop, stopped. by intros ->. Qed.

Lemma Stop_times_stopped (n : nat) (s : World) :
  stopped s = true → Stop_times n s = Some s.
Proof.
  intros Hs. induction n as [|n IH]; simpl; [done|].
  rewrite Stop_stopped by done. simpl. exact IH.
Qed.

(** C6: [Stop] never panics and leaves [userStop] closed; a call that finds
    it closed changes nothing, so calling [Stop] any number [N ≥ 1] of times
    gives the world that one call gives, and a later call, whatever the other
    goroutines did in between, is again without effect. *)
Theorem Stop_idempotent (s : World) (N : nat) :
  1 ≤ N →
  ∃ s1, Stop s = Some s1
        ∧ stopped s1 = true
        ∧ Stop_times N s = Some s1
        ∧ Stop s1 = Some s1
        ∧ (stopped s = true → s1 = s).
Proof.
  intros HN. destruct (Stop_closes s) as (s1 & Hs1 & Hc).
  exists s1. split; [exact Hs1|]. split; [exact Hc|]. split.
  - destruct N as [|N]; [lia|]. simpl. rewrite Hs1. simpl.
    by apply Stop_times_stopped.
  - split; [by apply Stop_stopped|].
    intros Hs. rewrite (Stop_stopped s Hs) in Hs1. congruence.
Qed.

Lemma Stop_idempotent_witness :
  let w := mkWatcher "alice"%string [] (Chan.make 2) (Chan.make 1)
                     (Chan.make 0) (Chan.make 0) [] ∅ in
  ∃ s1, Stop (spawn w ∅) = Some s1 ∧ Stop_times 3 (spawn w ∅) = Some s1.
Proof.
  intros w. destruct (Stop_idempotent (spawn w ∅) 3) as (s1 & H1 & _ & H3 & _).
  - lia.
  - exists s1. split; [exact H1 | exact H3].
Defined.

(** ** Runs *)

Lemma run_app (l1 l2 : list Action) (s : World) :
  run (l1 ++ l2) s = run l1 s ≫= run l2.
Proof.
  revert s. induction l1 as [|a l1 IH]; intros s; simpl; [done|].
  destruct (step a s) as [s1|]; simpl; [apply IH | done].
Qed.

Lemma run_invariant (P : World → Prop) :
  (∀ a s s', P s → step a s = Some s' → P s') →
  ∀ sched s s', P s → run sched s = Some s' → P s'.
Proof.
  intros Hstep sched. induction sched as [|a sched IH]; intros s s' HP Hrun; simpl in Hrun.
  - by simplify_eq.
  - destruct (step a s) as [s1|] eqn:Hs; simpl in Hrun; [|done].
    eapply IH; [|exact Hrun]. eapply Hstep; eauto.
Qed.

Arguments removed : simpl never.
Arguments hasAccess : simpl never.
Arguments Has : simpl never.
Arguments GetNamespace : simpl never.

(** ** The steps of the world, one by one *)

(** The event the handler makes of a change for namespace [n], and the
    [knownProjects] it leaves. *)
Inductive handler_event (n : string) (known : gset string)
  : Event → string → gset string → Prop :=
| HE_deleted :
    n ∈ known →
    handler_event n known
      {| Type_ := Deleted;
         Object_ := ConvertNamespace (mkNamespace n EmptyString) |}
      "delete notification timeout" (Delete known n)
| HE_upsert (namespace : Namespace) :
    handler_event n known
      {| Type_ := if Has known n then Modified else Added;
         Object_ := ConvertNamespace namespace |}
      "add notification timeout" (Insert known (Name namespace)).

Definition at_loop_head (pc : RelayPC) : bool :=
  match pc with AtInitial _ | AtSelect => true | _ => false end.

Definition push {A} (ch : Chan.t A) (v : A) : Chan.t A :=
  Chan.Make (Chan.buf ch ++ [v]) (Chan.cap ch) (Chan.closed ch).

Definition rest_of {A} (ch : Chan.t A) (rest : list A) : Chan.t A :=
  Chan.Make rest (Chan.cap ch) (Chan.closed ch).

Definition closed_of {A} (ch : Chan.t A) : Chan.t A :=
  Chan.Make (Chan.buf ch) (Chan.cap ch) true.

(** Every way a step can go through, with the world it leaves. *)
Inductive Step (s : World) : World → Prop :=
| S_noop : Step s s
| S_cache m : Step s (set_projectCache m s)
| S_enqueue n e msg known' :
    watching s = true → dispatcher s = Idle →
    handler_event n (knownProjects (watcher s)) e msg known' →
    Chan.len (cacheIncoming (watcher s)) < Chan.cap (cacheIncoming (watcher s)) →
    Step s (log (ObsEnqueue e)
              (with_watcher
                 (λ w, set_cacheIncoming (push (cacheIncoming w) e)
                         (set_knownProjects known' w)) s))
| S_overflow n e msg known' :
    watching s = true → dispatcher s = Idle →
    handler_event n (knownProjects (watcher s)) e msg known' →
    ¬ Chan.len (cacheIncoming (watcher s)) < Chan.cap (cacheIncoming (watcher s)) →
    Chan.len (cacheError (watcher s)) < Chan.cap (cacheError (watcher s)) →
    Step s (log (ObsCacheError msg)
              (with_watcher
                 (λ w, set_cacheError (push (cacheError w) msg)
                         (set_knownProjects known' w))
                 (RemoveWatcher ByIntake s)))
| S_overflow_blocked n e msg known' :
    watching s = true → dispatcher s = Idle →
    handler_event n (knownProjects (watcher s)) e msg known' →
    ¬ Chan.len (cacheIncoming (watcher s)) < Chan.cap (cacheIncoming (watcher s)) →
    ¬ Chan.len (cacheError (watcher s)) < Chan.cap (cacheError (watcher s)) →
    Step s (set_dispatcher (BlockedOnCacheError msg)
              (with_watcher (set_knownProjects known')
                 (RemoveWatcher ByIntake s)))
| S_stop :
    Chan.closed (userStop (watcher s)) = false →
    Step s (with_watcher (λ w, set_userStop (closed_of (userStop w)) w) s)
| S_init_done i :
    relay s = AtInitial i → initialProjects (watcher s) !! i = None →
    Step s (set_relay AtSelect s)
| S_init_emit i namespace :
    relay s = AtInitial i →
    initialProjects (watcher s) !! i = Some namespace →
    Chan.buf (cacheError (watcher s)) = [] →
    Step s (set_relay
              (Emitting {| Type_ := Added; Object_ := ConvertNamespace namespace |}
                        (AtInitial (S i))) s)
| S_take_error err rest :
    at_loop_head (relay s) = true →
    Chan.buf (cacheError (watcher s)) = err :: rest →
    dispatcher s = Idle →
    Step s (set_relay (Emitting (makeErrorEvent err) DeferRemove)
              (with_watcher (λ w, set_cacheError (rest_of (cacheError w) rest) w) s))
| S_take_error_unblock err rest msg :
    at_loop_head (relay s) = true →
    Chan.buf (cacheError (watcher s)) = err :: rest →
    dispatcher s = BlockedOnCacheError msg →
    Step s (set_relay (Emitting (makeErrorEvent err) DeferRemove)
              (send_cacheError msg
                 (set_dispatcher Idle
                    (with_watcher
                       (λ w, set_cacheError (rest_of (cacheError w) rest) w) s))))
| S_send e k :
    relay s = Emitting e k → Chan.closed (outgoing (watcher s)) = false →
    Step s (set_relay k (log (ObsDeliver e) s))
| S_drop e k :
    relay s = Emitting e k → Chan.closed (userStop (watcher s)) = true →
    Step s (set_relay k s)
| S_select_stop :
    relay s = AtSelect → Chan.closed (userStop (watcher s)) = true →
    Step s (set_relay DeferRemove s)
| S_select_incoming e rest hwm :
    relay s = AtSelect →
    Chan.buf (cacheIncoming (watcher s)) = e :: rest →
    Step s (set_relay (Emitting e AtSelect)
              (set_watchChannelHWM hwm
                 (with_watcher
                    (λ w, set_cacheIncoming (rest_of (cacheIncoming w) rest) w) s)))
| S_defer_remove :
    relay s = DeferRemove →
    Step s (set_relay DeferClose (RemoveWatcher ByRelay s))
| S_defer_close :
    relay s = DeferClose → Chan.closed (outgoing (watcher s)) = false →
    Step s (set_relay Exited
              (log ObsCloseOutgoing
                 (with_watcher (λ w, set_outgoing (closed_of (outgoing w)) w) s))).

Lemma handle_Step (s : World) (c : Change) :
  watching s = true → dispatcher s = Idle → Step s (handle s c).
Proof.
  intros Hw Hd. unfold handle, GroupMembershipChanged.
  destruct (removed _ _ _ _ _) eqn:Hr.
  - destruct (Has (knownProjects (watcher s)) (namespaceName c)) eqn:Hk; simpl;
      [|apply S_noop].
    apply Has_true in Hk.
    unfold enqueue_or_fail, Chan.try_send. simpl.
    destruct (decide _) as [Hroom|Hfull].
    + eapply (S_enqueue s (namespaceName c)); eauto using HE_deleted.
    + unfold send_cacheError, Chan.try_send. simpl.
      destruct (decide _) as [Hslot|Hslot].
      * eapply (S_overflow s (namespaceName c)); eauto using HE_deleted.
      * eapply (S_overflow_blocked s (namespaceName c)); eauto using HE_deleted.
  - destruct (hasAccess _ _ _); [|apply S_noop].
    destruct (GetNamespace _ _) as [namespace|]; [|apply S_noop].
    unfold enqueue_or_fail, Chan.try_send. simpl.
    destruct (decide _) as [Hroom|Hfull].
    + eapply (S_enqueue s (namespaceName c)); eauto using HE_upsert.
    + unfold send_cacheError, Chan.try_send. simpl.
      destruct (decide _) as [Hslot|Hslot].
      * eapply (S_overflow s (namespaceName c)); eauto using HE_upsert.
      * eapply (S_overflow_blocked s (namespaceName c)); eauto using HE_upsert.
Qed.

Lemma Stop_Step (s s' : World) : Stop s = Some s' → Step s s'.
Proof.
  unfold Stop, Chan.close.
  destruct (Chan.closed (userStop (watcher s))) eqn:Hc; simpl; intros H; simplify_eq.
  - apply S_noop.
  - by apply S_stop.
Qed.

Lemma recv_cacheError_None (s : World) :
  recv_cacheError s = None → Chan.buf (cacheError (watcher s)) = [].
Proof.
  unfold recv_cacheError, Chan.try_recv.
  destruct (Chan.buf (cacheError (watcher s))); [done|].
  by destruct (dispatcher _).
Qed.

Lemma take_error_Step (s s1 : World) (err : string) :
  at_loop_head (relay s) = true →
  recv_cacheError s = Some (err, s1) →
  Step s (set_relay (Emitting (makeErrorEvent err) DeferRemove) s1).
Proof.
  intros Hpc. unfold recv_cacheError, Chan.try_recv.
  destruct (Chan.buf (cacheError (watcher s))) as [|m rest] eqn:Hb; [done|].
  simpl. destruct (dispatcher s) as [|msg] eqn:Hd; intros H; simplify_eq.
  - by apply S_take_error.
  - by apply (S_take_error_unblock s err rest msg).
Qed.

Lemma Watch_step_Step (arm : Arm) (s s' : World) :
  Watch_step arm s = Some s' → Step s s'.
Proof.
  unfold Watch_step. destruct (relay s) as [i|e k| | | |] eqn:Hpc.
  - destruct (initialProjects (watcher s) !! i) as [namespace|] eqn:Hi.
    + destruct (recv_cacheError s) as [[err s1]|] eqn:Hr; intros H; simplify_eq.
      * apply take_error_Step; [by rewrite Hpc | done].
      * eapply S_init_emit; eauto using recv_cacheError_None.
    + intros H; simplify_eq. by eapply S_init_done.
  - unfold emit. destruct arm; simpl; try done.
    + destruct (Chan.closed (outgoing (watcher s))) eqn:Hc; simpl; intros H; simplify_eq.
      by apply S_send.
    + destruct (Chan.closed (userStop (watcher s))) eqn:Hc; simpl; intros H; simplify_eq.
      by apply (S_drop s e k).
  - destruct arm; try done.
    + destruct (Chan.closed (userStop (watcher s))) eqn:Hc; intros H; simplify_eq.
      by apply S_select_stop.
    + destruct (recv_cacheError s) as [[err s1]|] eqn:Hr; simpl; intros H; simplify_eq.
      apply take_error_Step; [by rewrite Hpc | done].
    + unfold Chan.try_recv.
      destruct (Chan.buf (cacheIncoming (watcher s))) as [|e rest] eqn:Hb; simpl;
        intros H; simplify_eq.
      by apply (S_select_incoming s e rest).
  - intros H; simplify_eq. by apply S_defer_remove.
  - unfold Chan.close.
    destruct (Chan.closed (outgoing (watcher s))) eqn:Hc; simpl; intros H; simplify_eq.
    by apply S_defer_close.
  - done.
Qed.

Lemma step_Step (a : Action) (s s' : World) : step a s = Some s' → Step s s'.
Proof.
  destruct a as [c| |arm|m]; simpl.
  - destruct (watching s) eqn:Hw; [|done].
    destruct (dispatcher s) eqn:Hd; [|done].
    intros H; simplify_eq. by apply handle_Step.
  - apply Stop_Step.
  - apply Watch_step_Step.
  - intros H; simplify_eq. apply S_cache.
Qed.

(** A property kept by every step holds after every run. *)
Lemma run_Step_invariant (P : World → Prop) :
  (∀ s s', P s → Step s s' → P s') →
  ∀ sched s s', P s → run sched s = Some s' → P s'.
Proof.
  intros HP. apply run_invariant. intros a s s' Hs Hstep.
  eapply HP; eauto using step_Step.
Qed.

Ltac step_inv H :=
  destruct H; unfold send_cacheError, Chan.try_send, Chan.len in *;
  simpl in *; autorewrite with trace in *; simpl in *.

(** ** Invariants of the runs *)

(** The slot of [cacheError] and the dispatcher. *)
Definition SlotInv (s : World) : Prop :=
  dispatcher s = Idle
  ∧ Chan.cap (cacheError (watcher s)) = 1
  ∧ length (Chan.buf (cacheError (watcher s))) ≤ 1
  ∧ (watching s = true →
     Chan.buf (cacheError (watcher s)) = []
     ∧ removals ByIntake (trace s) = 0
     ∧ recorded (trace s) = [])
  ∧ removals ByIntake (trace s) ≤ 1
  ∧ length (recorded (trace s)) = removals ByIntake (trace s).

Lemma SlotInv_Step (s s' : World) : SlotInv s → Step s s' → SlotInv s'.
Proof.
  unfold SlotInv. intros (Hd & Hcap & Hlen & Hw & Hrem & Hrec1) H.
  step_inv H.
  all: try congruence.
  all: try (destruct Hw as (Hb & Hr0 & Hrec); [done|];
            rewrite ?Hb, ?Hr0, ?Hrec, ?Hcap in *; simpl in * ).
  all: try (match goal with
            | Hb : Chan.buf (cacheError _) = _ :: _ |- _ => rewrite Hb in *
            end).
  all: rewrite ?length_app in *; simpl in *.
  all: intuition (simplify_eq; simpl in *; try done; try lia).
Qed.

(** The shapes the position of the relay goroutine takes: an [emit] is
    followed by the next round of one of the loops or by the [return]. *)
Definition relay_ok (pc : RelayPC) : Prop :=
  match pc with
  | Emitting _ (AtInitial _) | Emitting _ AtSelect | Emitting _ DeferRemove => True
  | Emitting _ _ => False
  | _ => True
  end.

Definition removed_by_relay (pc : RelayPC) : nat :=
  match pc with DeferClose | Exited => 1 | _ => 0 end.

Definition closed_by_relay (pc : RelayPC) : nat :=
  match pc with Exited => 1 | _ => 0 end.

Definition has_exited (pc : RelayPC) : bool :=
  match pc with Exited => true | _ => false end.

(** The way out of [Watch]: the two deferred calls run once each, in the
    last two steps of the goroutine. *)
Definition ExitInv (s : World) : Prop :=
  relay_ok (relay s)
  ∧ removals ByRelay (trace s) = removed_by_relay (relay s)
  ∧ closings (trace s) = closed_by_relay (relay s)
  ∧ Chan.closed (outgoing (watcher s)) = has_exited (relay s).

Lemma ExitInv_Step (s s' : World) : ExitInv s → Step s s' → ExitInv s'.
Proof.
  unfold ExitInv. intros (Hok & Hrm & Hcl & Hog) H.
  step_inv H.
  all: repeat case_match; simpl in *.
  all: try (match goal with Hpc : relay _ = _ |- _ => rewrite Hpc in * end).
  all: try (match goal with
            | Hh : at_loop_head (relay ?x) = true |- _ => destruct (relay x)
            end).
  all: simpl in *; try done.
  all: try (match goal with k : RelayPC |- _ => destruct k; simpl in * end).
  all: split_and?; try done; try lia.
  all: autorewrite with trace; simpl; lia.
Qed.

Definition noError (events : list Event) : Prop :=
  Forall (λ e, Type_ e ≠ Error) events.

Definition returning (pc : RelayPC) : bool :=
  match pc with DeferRemove | DeferClose | Exited => true | _ => false end.

(** The event inside an [emit] that is not followed by [return] is not an
    error event. *)
Definition inflight_ok (pc : RelayPC) : Prop :=
  match pc with
  | Emitting _ DeferRemove => True
  | Emitting e _ => Type_ e ≠ Error
  | _ => True
  end.

(** Error events: none is buffered, and one that reached the consumer was
    sent by the [emit] that precedes a [return]. *)
Definition ErrInv (s : World) : Prop :=
  noError (Chan.buf (cacheIncoming (watcher s)))
  ∧ relay_ok (relay s)
  ∧ inflight_ok (relay s)
  ∧ (noError (received (trace s))
     ∨ returning (relay s) = true
       ∧ ∃ pre e, received (trace s) = pre ++ [e]
                  ∧ noError pre ∧ Type_ e = Error).

Lemma noError_snoc (l : list Event) (e : Event) :
  noError (l ++ [e]) ↔ noError l ∧ Type_ e ≠ Error.
Proof.
  unfold noError. rewrite Forall_app, Forall_singleton. done.
Qed.

Lemma noError_cons (l : list Event) (e : Event) :
  noError (e :: l) ↔ Type_ e ≠ Error ∧ noError l.
Proof. exact (Forall_cons (λ e, Type_ e ≠ Error) e l). Qed.

Lemma handler_event_noError n known e msg known' :
  handler_event n known e msg known' → Type_ e ≠ Error.
Proof. destruct 1; simpl; [done|]. by destruct (Has known n). Qed.

Lemma ErrInv_Step (s s' : World) : ErrInv s → Step s s' → ErrInv s'.
Proof.
  unfold ErrInv. intros (Hbuf & Hok & Hfly & Hrecv) H.
  step_inv H.
  all: repeat case_match; simpl in *.
  all: autorewrite with trace; simpl.
  all: try (match goal with Hpc : relay _ = _ |- _ => rewrite Hpc in * end).
  all: try (match goal with
            | Hh : at_loop_head (relay ?x) = true |- _ => destruct (relay x)
            end).
  all: simpl in *; try done.
  all: try (match goal with
            | Hb : Chan.buf (cacheIncoming _) = _ :: _ |- _ =>
                rewrite Hb in Hbuf; apply noError_cons in Hbuf
            end).
  all: rewrite ?noError_snoc.
  all: try (split_and?; eauto using handler_event_noError; tauto).
  all: destruct Hrecv as [Hrecv|[? _]]; [|done].
  all: destruct k; simpl in *; try done; split_and?; try done; auto.
  destruct (decide (Type_ e = Error)) as [He|He]; [right|left; done].
  split; [done|]. eauto.
Qed.

(** What the relay goroutine owes to the error it found in [cacheError]. *)
Definition term_ok (s : World) : Prop :=
  match relay s with
  | Emitting e DeferRemove =>
      ∃ m, e = makeErrorEvent m ∧ recorded (trace s) = [m]
  | DeferRemove | DeferClose | Exited =>
      stopped s = true
      ∨ ∃ m pre, recorded (trace s) = [m]
                 ∧ received (trace s) = pre ++ [makeErrorEvent m]
  | _ => True
  end.

(** The error in the slot is the one recorded, and [Watch] returns only
    after [Stop] or after the consumer received the error event. *)
Definition TermInv (s : World) : Prop :=
  (∀ m l, Chan.buf (cacheError (watcher s)) = m :: l → recorded (trace s) = [m])
  ∧ term_ok s.

Lemma TermInv_Step (s s' : World) :
  SlotInv s → relay_ok (relay s) → TermInv s → Step s s' → TermInv s'.
Proof.
  unfold TermInv, SlotInv, term_ok, stopped.
  intros (Hd & Hcap & Hlen & Hw & Hrem & _) Hok [Hslot Hterm] H.
  step_inv H.
  all: try congruence.
  all: try (destruct Hw as (Hb & Hr0 & Hrec); [done|];
            rewrite ?Hb, ?Hr0, ?Hrec, ?Hcap in *; simpl in * ).
  all: try (match goal with Hpc : relay _ = _ |- _ => rewrite Hpc in * end).
  all: try (match goal with
            | Hh : at_loop_head (relay ?x) = true |- _ =>
                destruct (relay x); try done
            end).
  all: simpl in *.
  all: try (match goal with
            | Hb : Chan.buf (cacheError _) = _ :: ?l |- _ =>
                rewrite Hb in Hlen; destruct l; [|simpl in Hlen; lia];
                specialize (Hslot _ _ Hb)
            end).
  all: (split; [intros m' l' Hm; simplify_eq; eauto|]).
  all: repeat case_match; simplify_eq; try done.
  all: try (destruct Hterm as (m' & -> & Hm'); simplify_eq; eauto; fail).
  all: try (rewrite ?Hrec; right; eauto; fail).
  all: try (destruct Hterm as [Hst|(m' & pre' & Hm' & Hpre')]; simplify_eq; eauto; fail).
  all: eauto.
Qed.

(** ** Order of delivery *)

(** The [Added] event [Watch] emits for a namespace of [initialProjects]. *)
Definition AddedEvent (namespace : Namespace) : Event :=
  {| Type_ := Added; Object_ := ConvertNamespace namespace |}.

(** The initial snapshot as the consumer is to see it. *)
Definition snapshot (w : userProjectWatcher) : list Event :=
  AddedEvent <$> initialProjects w.

(** The relay goroutine is in one of its two loops and has not met an error. *)
Definition forwarding (pc : RelayPC) : bool :=
  match pc with
  | AtInitial _ | AtSelect
  | Emitting _ (AtInitial _) | Emitting _ AtSelect => true
  | _ => false
  end.

(** The events the relay goroutine hands over before it next turns to
    [cacheIncoming]. *)
Definition upcoming (initial : list Namespace) (pc : RelayPC) : list Event :=
  match pc with
  | AtInitial i => AddedEvent <$> drop i initial
  | Emitting e (AtInitial i) => e :: (AddedEvent <$> drop i initial)
  | Emitting e _ => [e]
  | _ => []
  end.

(** What is still to be delivered: the events the relay goroutine holds,
    then the buffer. *)
Definition pending (s : World) : list Event :=
  upcoming (initialProjects (watcher s)) (relay s)
  ++ Chan.buf (cacheIncoming (watcher s)).

(** As long as the buffer has not overflowed and nobody has called [Stop],
    what was received and what is pending make up the snapshot followed by
    all that was enqueued. *)
Definition OrdInv (s : World) : Prop :=
  removals ByIntake (trace s) = 0 → stopped s = false →
  Chan.buf (cacheError (watcher s)) = []
  ∧ forwarding (relay s) = true
  ∧ received (trace s) ++ pending s = snapshot (watcher s) ++ enqueued (trace s).

Lemma OrdInv_Step (s s' : World) : OrdInv s → Step s s' → OrdInv s'.
Proof.
  unfold OrdInv, pending, snapshot, stopped. intros HI H.
  step_inv H.
  all: repeat case_match; simpl in *; autorewrite with trace; simpl.
  all: intros Hrem Hstop; try lia; try done.
  all: destruct HI as (Hslot & Hfw & Heq); [try done; lia | try done; congruence |].
  all: try congruence.
  all: try (match goal with Hpc : relay _ = _ |- _ => rewrite Hpc in * end).
  all: simpl in *; try done.
  all: split; [done|].
  - rewrite !(assoc_L (++)). rewrite !(assoc_L (++)) in Heq. by rewrite Heq.
  - match goal with
    | Hn : _ !! _ = None |- _ =>
        apply lookup_ge_None in Hn; rewrite drop_ge in Heq by done
    end.
    done.
  - match goal with
    | Hn : _ !! _ = Some _ |- _ => rewrite (drop_S _ _ _ Hn) in Heq
    end.
    done.
  - destruct k; simpl in *; try done;
      (split; [done|]); by rewrite <- (assoc_L (++)).
  - match goal with
    | Hb : Chan.buf _ = _ :: _ |- _ => rewrite Hb in Heq
    end.
    done.
Qed.

(** ** [knownProjects] and the events enqueued *)

(** The namespace an event is about. *)
Definition eventName (e : Event) : option string :=
  match Object_ e with
  | Project ns => Some (Name ns)
  | StatusFailure _ => None
  end.

(** The kind of the last of [events] that is about namespace [n]. *)
Fixpoint lastEventFor (n : string) (events : list Event) : option EventType :=
  match events with
  | [] => None
  | e :: rest =>
      match lastEventFor n rest with
      | Some t => Some t
      | None => if decide (eventName e = Some n) then Some (Type_ e) else None
      end
  end.

(** What the events enqueued so far say about namespace [n]: visible after
    an [Added] or [Modified], not visible after a [Deleted], and as at the
    start ([known0]) when no event was about [n]. *)
Definition believed (known0 : gset string) (events : list Event) (n : string) : Prop :=
  match lastEventFor n events with
  | Some t => t = Added ∨ t = Modified
  | None => n ∈ known0
  end.

Lemma lastEventFor_snoc (n : string) (events : list Event) (e : Event) :
  lastEventFor n (events ++ [e])
  = if decide (eventName e = Some n) then Some (Type_ e)
    else lastEventFor n events.
Proof.
  induction events as [|e' events IH]; simpl.
  - by destruct (decide _).
  - rewrite IH. destruct (decide (eventName e = Some n)); [done|].
    reflexivity.
Qed.

Definition KnownInv (known0 : gset string) (s : World) : Prop :=
  removals ByIntake (trace s) = 0 →
  ∀ n, n ∈ knownProjects (watcher s) ↔ believed known0 (enqueued (trace s)) n.

Lemma KnownInv_Step (known0 : gset string) (s s' : World) :
  KnownInv known0 s → Step s s' → KnownInv known0 s'.
Proof.
  unfold KnownInv. intros HI H.
  step_inv H.
  all: repeat case_match; simpl in *; autorewrite with trace; simpl.
  all: intros Hrem; try lia; try (apply HI; lia).
  assert (Hrem0 : removals ByIntake (trace s) = 0) by lia.
  specialize (HI Hrem0). intros n'. unfold believed in *.
  rewrite lastEventFor_snoc. specialize (HI n').
  match goal with Hev : handler_event _ _ _ _ _ |- _ => destruct Hev end;
    unfold eventName, Delete, Insert; simpl.
  - destruct (decide (Some n = Some n')) as [Heq|Hne].
    + simplify_eq. rewrite elem_of_difference, elem_of_singleton.
      split; [by intros [_ ?] | by intros [?|?]].
    + rewrite <- HI, elem_of_difference, elem_of_singleton.
      split; [by intros [? _] | intros; split; [done|congruence]].
  - destruct (decide (Some (Name namespace) = Some n')) as [Heq|Hne].
    + simplify_eq. split.
      * intros _. destruct (Has _ _); auto.
      * intros _. by apply elem_of_union_l, elem_of_singleton.
    + rewrite <- HI, elem_of_union, elem_of_singleton.
      split; [intros [?|?]; [congruence|done] | by right].
Qed.

(** ** Runs of a new watcher *)

(** A watcher as the constructor leaves it, for any capacity of
    [cacheIncoming]: channels empty and open, one slot in [cacheError]. *)
Definition fresh (w : userProjectWatcher) : Prop :=
  Chan.buf (cacheIncoming w) = []
  ∧ cacheError w = Chan.make 1
  ∧ Chan.closed (outgoing w) = false
  ∧ Chan.closed (userStop w) = false.

Lemma NewUserProjectWatcher_fresh username groups authCache includeAll w :
  NewUserProjectWatcher username groups authCache includeAll = Some w →
  fresh w ∧ Chan.cap (cacheIncoming w) = 1000.
Proof.
  unfold NewUserProjectWatcher. destruct (List _ _ _) as [[namespaces|] err]; [|done].
  intros H; simplify_eq. by repeat split.
Qed.

(** What no step changes. *)
Definition FrameInv (w : userProjectWatcher) (s : World) : Prop :=
  username (watcher s) = username w
  ∧ groups (watcher s) = groups w
  ∧ initialProjects (watcher s) = initialProjects w
  ∧ Chan.cap (cacheIncoming (watcher s)) = Chan.cap (cacheIncoming w)
  ∧ length (Chan.buf (cacheIncoming (watcher s))) ≤ Chan.cap (cacheIncoming w).

Lemma FrameInv_Step (w : userProjectWatcher) (s s' : World) :
  FrameInv w s → Step s s' → FrameInv w s'.
Proof.
  unfold FrameInv. intros (Hu & Hg & Hi & Hc & Hl) H.
  step_inv H.
  all: repeat case_match; simpl in *.
  all: try (match goal with
            | Hb : Chan.buf (cacheIncoming _) = _ :: _ |- _ =>
                rewrite Hb in Hl; simpl in Hl
            end).
  all: rewrite ?length_app; simpl.
  all: split_and?; try done; try lia.
Qed.

(** All the invariants together. *)
Record Inv (w : userProjectWatcher) (s : World) : Prop := mkInv {
  inv_frame : FrameInv w s;
  inv_slot : SlotInv s;
  inv_exit : ExitInv s;
  inv_err : ErrInv s;
  inv_term : TermInv s;
  inv_ord : OrdInv s;
  inv_known : KnownInv (knownProjects w) s
}.

Lemma Inv_Step (w : userProjectWatcher) (s s' : World) :
  Inv w s → Step s s' → Inv w s'.
Proof.
  intros [HF HS HX HE HT HO HK] H.
  constructor.
  - eapply FrameInv_Step; eauto.
  - eapply SlotInv_Step; eauto.
  - eapply ExitInv_Step; eauto.
  - eapply ErrInv_Step; eauto.
  - eapply TermInv_Step; eauto. apply HX.
  - eapply OrdInv_Step; eauto.
  - eapply KnownInv_Step; eauto.
Qed.

Lemma Inv_spawn (w : userProjectWatcher) (cache : gmap string Namespace) :
  fresh w → Inv w (spawn w cache).
Proof.
  intros (Hci & Hce & Hog & Hus).
  constructor.
  all: unfold FrameInv, SlotInv, ExitInv, ErrInv, TermInv, term_ok, OrdInv,
    KnownInv, pending, snapshot, believed, stopped, noError; simpl.
  all: rewrite ?Hci, ?Hce, ?Hog; simpl; rewrite ?drop_0, ?app_nil_r.
  all: split_and?; try done; try lia; auto.
Qed.

Lemma Inv_run (w : userProjectWatcher) (cache : gmap string Namespace)
    (sched : list Action) (s : World) :
  fresh w → run sched (spawn w cache) = Some s → Inv w s.
Proof.
  intros Hw Hrun.
  eapply (run_Step_invariant (Inv w)); [apply Inv_Step | | exact Hrun].
  by apply Inv_spawn.
Qed.

(** ** The way out of the relay loop *)

(** C7: in every run of a new watcher the relay goroutine calls
    [RemoveWatcher] and closes [outgoing] only on its way out, once each:
    nothing of the two before it returns, and both exactly once when it has
    exited; once it returns, its two deferred steps always go through. *)
Theorem Watch_exits_once (w : userProjectWatcher) (cache : gmap string Namespace)
    (sched : list Action) (s : World) :
  fresh w →
  run sched (spawn w cache) = Some s →
  (returning (relay s) = false →
     removals ByRelay (trace s) = 0 ∧ closings (trace s) = 0
     ∧ Chan.closed (outgoing (watcher s)) = false)
  ∧ (relay s = Exited →
     removals ByRelay (trace s) = 1 ∧ closings (trace s) = 1
     ∧ Chan.closed (outgoing (watcher s)) = true)
  ∧ (relay s = DeferRemove →
     ∀ arm1 arm2, ∃ s', run [Relay arm1; Relay arm2] s = Some s'
       ∧ relay s' = Exited
       ∧ trace s' = trace s ++ [ObsRemoveWatcher ByRelay; ObsCloseOutgoing])
  ∧ (relay s = DeferClose →
     ∀ arm, ∃ s', run [Relay arm] s = Some s'
       ∧ relay s' = Exited
       ∧ trace s' = trace s ++ [ObsCloseOutgoing]).
Proof.
  intros Hw Hrun. destruct (Inv_run w cache sched s Hw Hrun) as [_ _ HX _ _ _ _].
  destruct HX as (Hok & Hrm & Hcl & Hog).
  split_and?.
  - intros Hr. destruct (relay s); simpl in *; done.
  - intros Hr. rewrite Hr in *. done.
  - intros Hr arm1 arm2. rewrite Hr in *. simpl in *.
    unfold Watch_step. rewrite Hr. simpl.
    unfold Watch_step, Chan.close. simpl. rewrite Hog. simpl.
    eexists. split; [reflexivity|]. simpl. split; [done|].
    by rewrite <- (assoc_L (++)).
  - intros Hr arm. rewrite Hr in *. simpl in *.
    unfold Watch_step, Chan.close. rewrite Hr, Hog. simpl.
    eexists. split; [reflexivity|]. done.
Qed.

(** The witness of [Watch_exits_once]: the consumer stops a watcher that has
    nothing to deliver, and the relay goroutine leaves through its [select]. *)
Lemma Watch_exits_once_witness :
  let w := mkWatcher "alice"%string [] (Chan.make 2) (Chan.make 1)
                     (Chan.make 0) (Chan.make 0) [] ∅ in
  let sched := [CallStop; Relay ArmStop; Relay ArmStop; Relay ArmStop; Relay ArmStop] in
  ∃ s, run sched (spawn w ∅) = Some s
       ∧ removals ByRelay (trace s) = 1 ∧ closings (trace s) = 1
       ∧ Chan.closed (outgoing (watcher s)) = true.
Proof.
  intros w sched.
  destruct (run sched (spawn w ∅)) as [s|] eqn:Hrun; [|vm_compute in Hrun; discriminate].
  exists s. split; [done|].
  destruct (Watch_exits_once w ∅ sched s) as (_ & H & _).
  - by repeat split.
  - exact Hrun.
  - apply H. vm_compute in Hrun. by simplify_eq.
Defined.

(** ** The terminal error *)

Lemma returning_Step (s s' : World) :
  returning (relay s) = true → Step s s' →
  returning (relay s') = true ∧ received (trace s') = received (trace s).
Proof.
  intros Hr H. step_inv H.
  all: try (match goal with Hpc : relay _ = _ |- _ => rewrite Hpc in * end).
  all: try (match goal with
            | Hh : at_loop_head (relay ?x) = true |- _ => destruct (relay x)
            end).
  all: simpl in *; try done.
Qed.

Lemma returning_run (sched : list Action) (s s' : World) :
  returning (relay s) = true → run sched s = Some s' →
  returning (relay s') = true ∧ received (trace s') = received (trace s).
Proof.
  revert s. induction sched as [|a sched IH]; intros s Hr Hrun; simpl in Hrun.
  - by simplify_eq.
  - destruct (step a s) as [s1|] eqn:Hs; simpl in Hrun; [|done].
    destruct (returning_Step s s1 Hr (step_Step _ _ _ Hs)) as [Hr1 He1].
    destruct (IH s1 Hr1 Hrun) as [Hr' He']. split; [done|]. congruence.
Qed.

Lemma slot_kept_Step (s s' : World) (m : string) :
  SlotInv s → Chan.buf (cacheError (watcher s)) = [m] → Step s s' →
  Chan.buf (cacheError (watcher s')) = [m]
  ∨ Chan.buf (cacheError (watcher s')) = []
    ∧ relay s' = Emitting (makeErrorEvent m) DeferRemove.
Proof.
  unfold SlotInv. intros (Hd & Hcap & Hlen & Hw & Hrem & Hrec1) Hm H.
  step_inv H.
  all: try congruence.
  all: try (destruct Hw as (Hb & _); [done|]; congruence).
  all: try (left; done).
  right. rewrite Hm in *. by simplify_eq.
Qed.

(** An error event among the events received. *)
Definition hasError (events : list Event) : Prop :=
  ∃ e, e ∈ events ∧ Type_ e = Error.

(** C5, as amended: [cacheError] holds at most one error, at most one is
    ever recorded, and a recorded error stays in the slot until the relay
    goroutine takes it out to emit it; the consumer receives at most one
    error event, and once it has received one it receives nothing more. *)
Theorem error_event_is_single_and_last (w : userProjectWatcher)
    (cache : gmap string Namespace) (sched : list Action) (s : World) :
  fresh w →
  run sched (spawn w cache) = Some s →
  length (Chan.buf (cacheError (watcher s))) ≤ 1
  ∧ length (recorded (trace s)) ≤ 1
  ∧ (∀ m a s', Chan.buf (cacheError (watcher s)) = [m] → step a s = Some s' →
       Chan.buf (cacheError (watcher s')) = [m]
       ∨ Chan.buf (cacheError (watcher s')) = []
         ∧ relay s' = Emitting (makeErrorEvent m) DeferRemove)
  ∧ (noError (received (trace s))
     ∨ ∃ pre e, received (trace s) = pre ++ [e]
                ∧ noError pre ∧ Type_ e = Error)
  ∧ (hasError (received (trace s)) →
     ∀ sched' s', run sched' s = Some s' →
       received (trace s') = received (trace s)).
Proof.
  intros Hw Hrun. destruct (Inv_run w cache sched s Hw Hrun) as [_ HS _ HE _ _ _].
  pose proof HS as (Hd & Hcap & Hlen & Hwt & Hrem & Hrec1).
  destruct HE as (_ & _ & _ & Hrecv).
  split_and?.
  - done.
  - lia.
  - intros m a s' Hm Hs. eapply slot_kept_Step; eauto using step_Step.
  - destruct Hrecv as [?|(_ & ?)]; [by left | by right].
  - intros (e & Hin & He) sched' s' Hrun'.
    destruct Hrecv as [Hno|(Hret & _)].
    + unfold noError in Hno. rewrite Forall_forall in Hno.
      by destruct (Hno e Hin).
    + by destruct (returning_run sched' s s' Hret Hrun').
Qed.

(** *** A concrete watcher *)

(** A membership cache that lists namespace a for everybody. *)
Definition lists_a : WatchableCache :=
  mkWatchableCache
    (λ _ _, (Some (mkNamespaceList [mkNamespace "a"%string "1"%string]), None)).

(** The watcher the constructor makes for alice, without initial snapshot. *)
Definition alice : option userProjectWatcher :=
  NewUserProjectWatcher "alice"%string ["dev"%string] lists_a false.

(** A project cache that resolves namespace a. *)
Definition projects : gmap string Namespace :=
  {[ "a"%string := mkNamespace "a"%string "7"%string ]}.

(** alice is among the users of namespace a. *)
Definition grant_a : Change :=
  mkChange "a"%string {[ "alice"%string ]} ∅ ∅ ∅ ∅ ∅.

(** alice was removed from the users of namespace a. *)
Definition revoke_a : Change :=
  mkChange "a"%string ∅ ∅ {[ "alice"%string ]} ∅ ∅ ∅.

(** A small watcher with room for two events, to run schedules on. *)
Definition small : userProjectWatcher :=
  mkWatcher "alice"%string ["dev"%string] (Chan.make 2) (Chan.make 1)
            (Chan.make 0) (Chan.make 0) [] {[ "a"%string ]}.

Lemma small_fresh : fresh small.
Proof. by repeat split. Qed.

(** The witness of [error_event_is_single_and_last]: three changes overflow
    the small watcher, and the relay goroutine emits the error and leaves. *)
Lemma error_event_is_single_and_last_witness :
  let sched := [Notify grant_a; Notify grant_a; Notify grant_a;
                Relay ArmSend; Relay ArmError; Relay ArmSend;
                Relay ArmSend; Relay ArmSend] in
  ∃ s, run sched (spawn small projects) = Some s
       ∧ length (recorded (trace s)) ≤ 1
       ∧ (noError (received (trace s))
          ∨ ∃ pre e, received (trace s) = pre ++ [e]
                     ∧ noError pre ∧ Type_ e = Error).
Proof.
  intros sched.
  destruct (run sched (spawn small projects)) as [s|] eqn:Hrun;
    [|vm_compute in Hrun; discriminate].
  exists s. split; [done|].
  destruct (error_event_is_single_and_last small projects sched s small_fresh Hrun)
    as (_ & H2 & _ & H4 & _).
  split; [exact H2 | exact H4].
Defined.

(** No event that is not an error event is delivered after an error was
    recorded in [cacheError]. *)
Fixpoint quiet_after_error (tr : list Obs) : bool :=
  match tr with
  | [] => true
  | ObsCacheError _ :: rest =>
      forallb (λ o, match o with
                    | ObsDeliver e => bool_decide (Type_ e = Error)
                    | _ => true
                    end) rest
  | _ :: rest => quiet_after_error rest
  end.

(** C5 as the claim has it: once the error is recorded, the relay goroutine
    delivers nothing but the error event. *)
Definition error_silences_relay (w : userProjectWatcher)
    (cache : gmap string Namespace) : Prop :=
  ∀ sched s, run sched (spawn w cache) = Some s →
             quiet_after_error (trace s) = true.

(** The schedule that refutes it: 1001 changes for alice, the last of which
    overflows the buffer of 1000; then the relay goroutine takes the
    [cacheIncoming] arm of its [select], which is as ready as the
    [cacheError] arm, and delivers a buffered event. *)
Definition overflow_then_forward : list Action :=
  repeat (Notify grant_a) 1001
  ++ [Relay ArmIncoming; Relay ArmIncoming; Relay ArmSend].

Lemma error_does_not_silence_relay :
  ∃ w, alice = Some w ∧ ¬ error_silences_relay w projects.
Proof.
  eexists. split; [reflexivity|]. intros H.
  assert (Hq : (s ← run overflow_then_forward
                      (spawn (default small alice) projects);
                Some (quiet_after_error (trace s))) = Some false)
    by (vm_compute; reflexivity).
  change (default small alice) with
    (mkWatcher "alice"%string ["dev"%string] (Chan.make 1000) (Chan.make 1)
       (Chan.make 0) (Chan.make 0) []
       (foldl (λ known namespace, Insert known (Name namespace)) ∅
          [mkNamespace "a"%string "1"%string])) in Hq.
  destruct (run overflow_then_forward _) as [s|] eqn:Hrun; [|discriminate].
  specialize (H _ _ Hrun). simpl in Hq. congruence.
Qed.

(** ** [knownProjects] over a run *)

(** C4, as amended: from the start of a watcher on, and after every call of
    the handler that did not overflow [cacheIncoming], a name is in
    [knownProjects] exactly when the last event enqueued for it is [Added]
    or [Modified], or when no event was enqueued for it and it was known at
    the start. *)
Theorem knownProjects_follows_events (w : userProjectWatcher)
    (cache : gmap string Namespace) (sched : list Action) (s : World) :
  run sched (spawn w cache) = Some s →
  removals ByIntake (trace s) = 0 →
  ∀ n, n ∈ knownProjects (watcher s)
       ↔ believed (knownProjects w) (enqueued (trace s)) n.
Proof.
  intros Hrun.
  apply (run_Step_invariant (KnownInv (knownProjects w))
           (KnownInv_Step (knownProjects w)) sched (spawn w cache) s);
    [|exact Hrun].
  intros _ n. unfold believed. simpl. done.
Qed.

(** The witness of [knownProjects_follows_events]: access to namespace a is
    granted and then taken away, and a is no longer known. *)
Lemma knownProjects_follows_events_witness :
  let sched := [Notify grant_a; Relay ArmSend; Notify revoke_a] in
  ∃ s, run sched (spawn small projects) = Some s
       ∧ ("a"%string ∈ knownProjects (watcher s)
          ↔ believed (knownProjects small) (enqueued (trace s)) "a"%string).
Proof.
  intros sched.
  destruct (run sched (spawn small projects)) as [s|] eqn:Hrun;
    [|vm_compute in Hrun; discriminate].
  exists s. split; [done|].
  apply (knownProjects_follows_events small projects sched s Hrun).
  vm_compute in Hrun. by simplify_eq.
Defined.

(** C4 as the claim has it: the same in every run, overflow or not. *)
Definition knownProjects_always_follows_events (w : userProjectWatcher)
    (cache : gmap string Namespace) : Prop :=
  ∀ sched s, run sched (spawn w cache) = Some s →
    ∀ n, n ∈ knownProjects (watcher s)
         ↔ believed (knownProjects w) (enqueued (trace s)) n.

(** The schedule that refutes it: 1000 changes for alice fill the buffer,
    then her access to namespace a is taken away.  The handler deletes a from
    [knownProjects] and then finds no room for the [Deleted] event, so the
    last event enqueued for a stays [Modified]. *)
Definition fill_then_revoke : list Action :=
  repeat (Notify grant_a) 1000 ++ [Notify revoke_a].

Lemma overflow_breaks_knownProjects :
  ∃ w, alice = Some w ∧ ¬ knownProjects_always_follows_events w projects.
Proof.
  eexists. split; [reflexivity|]. intros H.
  assert (Hq : (s ← run fill_then_revoke
                      (spawn (default small alice) projects);
                Some (Has (knownProjects (watcher s)) "a"%string,
                      lastEventFor "a"%string (enqueued (trace s))))
               = Some (false, Some Modified))
    by (vm_compute; reflexivity).
  change (default small alice) with
    (mkWatcher "alice"%string ["dev"%string] (Chan.make 1000) (Chan.make 1)
       (Chan.make 0) (Chan.make 0) []
       (foldl (λ known namespace, Insert known (Name namespace)) ∅
          [mkNamespace "a"%string "1"%string])) in Hq.
  destruct (run fill_then_revoke _) as [s|] eqn:Hrun; [|discriminate].
  specialize (H _ _ Hrun "a"%string). simpl in Hq.
  injection Hq as Hk Hl. unfold believed in H. rewrite Hl in H.
  apply Has_false in Hk. apply Hk, H. by right.
Qed.

(** ** Draining *)

Definition is_relay (a : Action) : Prop :=
  match a with Relay _ => True | _ => False end.

Definition drain_measure (s : World) : nat :=
  3 * length (pending s)
  + match relay s with Emitting _ _ => 0 | AtSelect => 1 | _ => 2 end.

(** Left to itself with a consumer that keeps receiving, the relay goroutine
    delivers all that is pending, in order, and ends at its [select] with
    [cacheIncoming] empty. *)
Lemma drain (n : nat) (s : World) :
  drain_measure s ≤ n →
  forwarding (relay s) = true →
  Chan.buf (cacheError (watcher s)) = [] →
  Chan.closed (outgoing (watcher s)) = false →
  ∃ sched s',
    Forall is_relay sched
    ∧ run sched s = Some s'
    ∧ received (trace s') = received (trace s) ++ pending s
    ∧ pending s' = []
    ∧ relay s' = AtSelect
    ∧ enqueued (trace s') = enqueued (trace s)
    ∧ watcher s' = set_cacheIncoming
                     (rest_of (cacheIncoming (watcher s)) []) (watcher s).
Proof.
  revert s. induction n as [n IH] using lt_wf_ind.
  intros s Hm Hfw Hce Hog.
  (* one step of the relay goroutine that delivers [d] and leaves [s1] *)
  assert (Hadvance : ∀ arm s1 d,
            step (Relay arm) s = Some s1 →
            drain_measure s1 < drain_measure s →
            forwarding (relay s1) = true →
            Chan.buf (cacheError (watcher s1)) = [] →
            Chan.closed (outgoing (watcher s1)) = false →
            received (trace s1) = received (trace s) ++ d →
            pending s = d ++ pending s1 →
            enqueued (trace s1) = enqueued (trace s) →
            set_cacheIncoming (rest_of (cacheIncoming (watcher s1)) []) (watcher s1)
            = set_cacheIncoming (rest_of (cacheIncoming (watcher s)) []) (watcher s) →
            ∃ sched s',
              Forall is_relay sched
              ∧ run sched s = Some s'
              ∧ received (trace s') = received (trace s) ++ pending s
              ∧ pending s' = []
              ∧ relay s' = AtSelect
              ∧ enqueued (trace s') = enqueued (trace s)
              ∧ watcher s' = set_cacheIncoming
                               (rest_of (cacheIncoming (watcher s)) []) (watcher s)).
  { intros arm s1 d Hs Hlt Hfw1 Hce1 Hog1 Hrcv1 Hpend1 Henq1 Hwt1.
    destruct (IH (drain_measure s1)) with (s := s1)
      as (sched & s' & Hrel & Hrun & Hrcv & Hpend & Hrl & Henq & Hwt);
      try done; [lia|].
    exists (Relay arm :: sched), s'. split_and?; try done.
    - by constructor.
    - simpl run. simpl in Hs. rewrite Hs. exact Hrun.
    - rewrite Hrcv, Hrcv1, Hpend1. by rewrite (assoc_L (++)).
    - congruence.
    - congruence. }
  destruct (relay s) as [i|e k| | | |] eqn:Hpc; simpl in Hfw; try done.
  - (* at the top of the first loop *)
    destruct (initialProjects (watcher s) !! i) as [namespace|] eqn:Hi.
    + apply (Hadvance ArmSend
               (set_relay (Emitting (AddedEvent namespace) (AtInitial (S i))) s) []);
        try done.
      * simpl. unfold Watch_step, recv_cacheError, Chan.try_recv.
        by rewrite Hpc, Hi, Hce.
      * unfold drain_measure, pending. rewrite Hpc. simpl relay.
        cbn [watcher set_relay upcoming]. rewrite (drop_S _ _ _ Hi).
        rewrite fmap_cons. simpl length. lia.
      * by rewrite app_nil_r.
      * unfold pending. rewrite Hpc. cbn [watcher set_relay relay upcoming].
        by rewrite (drop_S _ _ _ Hi).
    + apply (Hadvance ArmSend (set_relay AtSelect s) []); try done.
      * simpl. unfold Watch_step. by rewrite Hpc, Hi.
      * unfold drain_measure, pending. rewrite Hpc.
        cbn [watcher set_relay relay upcoming]. apply lookup_ge_None in Hi.
        rewrite (drop_ge _ _ Hi). simpl length. lia.
      * by rewrite app_nil_r.
      * unfold pending. rewrite Hpc. cbn [watcher set_relay relay upcoming].
        apply lookup_ge_None in Hi. by rewrite (drop_ge _ _ Hi).
  - (* inside [emit] *)
    assert (Hup : upcoming (initialProjects (watcher s)) (Emitting e k)
                  = e :: upcoming (initialProjects (watcher s)) k).
    { destruct k; simpl in *; done. }
    apply (Hadvance ArmSend (set_relay k (log (ObsDeliver e) s)) [e]); try done.
    + simpl. unfold Watch_step, emit. by rewrite Hpc, Hog.
    + unfold drain_measure, pending. rewrite Hpc, Hup.
      cbn [watcher set_relay relay log]. simpl length.
      destruct k; simpl in Hfw; try done; lia.
    + by destruct k.
    + cbn [trace set_relay log]. by autorewrite with trace.
    + unfold pending. rewrite Hpc, Hup. done.
    + cbn [trace set_relay log]. autorewrite with trace. done.
  - (* at the [select] *)
    destruct (Chan.buf (cacheIncoming (watcher s))) as [|e rest] eqn:Hb.
    + exists [], s. unfold pending. rewrite Hpc, Hb. simpl. rewrite app_nil_r.
      split_and?; try done.
      destruct s as [[? ? [? ? ?] ? ? ? ? ?] ? ? ? ? ? ?]. simpl in *. by subst.
    + apply (Hadvance ArmIncoming
               (set_relay (Emitting e AtSelect)
                  (set_watchChannelHWM
                     (fst (HighWaterMark_Update (watchChannelHWM s) (length rest)))
                     (with_watcher
                        (set_cacheIncoming (rest_of (cacheIncoming (watcher s)) rest))
                        s))) []); try done.
      * simpl. unfold Watch_step, Chan.try_recv. by rewrite Hpc, Hb.
      * unfold drain_measure, pending. rewrite Hpc, Hb. simpl. lia.
      * by rewrite app_nil_r.
      * unfold pending. rewrite Hpc, Hb. done.
Qed.

(** C3: in a run of a new watcher in which the buffer has not overflowed
    (and nobody has called [Stop]), the events the consumer has received,
    followed by those still pending in the relay goroutine and in the
    buffer, are the [Added] events of the initial snapshot, in the order of
    [initialProjects], followed by the events the handler enqueued, in the
    order it enqueued them; and the relay goroutine, left to itself, delivers
    all that is pending. *)
Theorem events_delivered_in_order (w : userProjectWatcher)
    (cache : gmap string Namespace) (sched : list Action) (s : World) :
  fresh w →
  run sched (spawn w cache) = Some s →
  removals ByIntake (trace s) = 0 →
  stopped s = false →
  received (trace s) ++ pending s = snapshot w ++ enqueued (trace s)
  ∧ ∃ sched' s',
      Forall is_relay sched'
      ∧ run sched' s = Some s'
      ∧ received (trace s') = snapshot w ++ enqueued (trace s)
      ∧ pending s' = [].
Proof.
  intros Hw Hrun Hrem Hstop.
  destruct (Inv_run w cache sched s Hw Hrun) as [HF _ HX _ _ HO _].
  destruct (HO Hrem Hstop) as (Hce & Hfw & Heq).
  destruct HF as (_ & _ & Hinit & _).
  assert (Hsnap : snapshot (watcher s) = snapshot w)
    by (unfold snapshot; by rewrite Hinit).
  rewrite Hsnap in Heq. split; [exact Heq|].
  destruct HX as (_ & _ & _ & Hog).
  destruct (drain (drain_measure s) s) as (sched' & s' & Hrel & Hrun' & Hrcv & Hpend & _);
    try done.
  { rewrite Hog. by destruct (relay s). }
  exists sched', s'. split_and?; try done. by rewrite Hrcv.
Qed.

(** The witness of [events_delivered_in_order]: a snapshot of one namespace,
    then a grant and a removal, with the relay goroutine in between. *)
Lemma events_delivered_in_order_witness :
  let w := mkWatcher "alice"%string ["dev"%string] (Chan.make 2) (Chan.make 1)
             (Chan.make 0) (Chan.make 0) [mkNamespace "a"%string "1"%string]
             {[ "a"%string ]} in
  let sched := [Notify grant_a; Relay ArmSend; Relay ArmSend;
                Notify revoke_a; Relay ArmSend] in
  ∃ s, run sched (spawn w projects) = Some s
       ∧ received (trace s) ++ pending s = snapshot w ++ enqueued (trace s).
Proof.
  intros w sched.
  destruct (run sched (spawn w projects)) as [s|] eqn:Hrun;
    [|vm_compute in Hrun; discriminate].
  exists s. split; [done|].
  apply (events_delivered_in_order w projects sched s).
  - by repeat split.
  - exact Hrun.
  - vm_compute in Hrun. by simplify_eq.
  - vm_compute in Hrun. by simplify_eq.
Defined.

(** ** Overflow *)

(** A change the handler has an event for: a removal of a known namespace,
    or access to a namespace the project cache resolves. *)
Definition relevant (s : World) (c : Change) : bool :=
  let w := watcher s in
  if removed w (latestUsers c) (latestGroups c) (removedUsers c) (removedGroups c)
  then Has (knownProjects w) (namespaceName c)
  else hasAccess w (latestUsers c) (latestGroups c)
       && bool_decide (is_Some (GetNamespace (projectCache s) (namespaceName c))).


Lemma relevant_handle (s : World) (c : Change) :
  relevant s c = true →
  ∃ e msg known',
    handler_event (namespaceName c) (knownProjects (watcher s)) e msg known'
    ∧ handle s c
      = enqueue_or_fail e msg (with_watcher (set_knownProjects known') s).
Proof.
  unfold relevant, handle, GroupMembershipChanged.
  destruct (removed _ _ _ _ _).
  - intros Hk. rewrite Hk. simpl.
    eexists _, _, _. split; [|reflexivity]. apply HE_deleted. by apply Has_true.
  - rewrite andb_true_iff, bool_decide_eq_true. intros [-> [namespace Hn]].
    rewrite Hn. eexists _, _, _. split; [|reflexivity]. apply HE_upsert.
Qed.











(** Where an error event comes from: one that the consumer received carries
    the message recorded in [cacheError]. *)
Definition OriginInv (s : World) : Prop :=
  ∀ e, e ∈ received (trace s) → Type_ e = Error →
       ∃ m, e = makeErrorEvent m ∧ recorded (trace s) = [m].

Lemma OriginInv_Step (s s' : World) :
  SlotInv s → ErrInv s → TermInv s → OriginInv s → Step s s' → OriginInv s'.
Proof.
  unfold OriginInv.
  intros (Hd & Hcap & Hlen & Hw & Hrem & Hrec1) (_ & Hok & Hfly & Hrecv)
         [Hslot Hterm] HI H.
  unfold term_ok in Hterm.
  step_inv H.
  all: try congruence.
  all: try (destruct Hw as (Hb & Hr0 & Hrec); [done|]).
  all: try exact HI.
  - intros e' Hin He'.
    destruct (HI e' Hin He') as (m & _ & Hm). congruence.
  - intros e' Hin He'.
    apply elem_of_app in Hin as [Hin|Hin%list_elem_of_singleton].
    + exact (HI e' Hin He').
    + subst e'. match goal with Hpc : relay _ = _ |- _ => rewrite Hpc in * end.
      destruct k; simpl in *; try done.
Qed.

Lemma Origin_run (w : userProjectWatcher) (cache : gmap string Namespace)
    (sched : list Action) (s : World) :
  fresh w → run sched (spawn w cache) = Some s → OriginInv s.
Proof.
  intros Hw Hrun.
  apply (run_Step_invariant (λ s, Inv w s ∧ OriginInv s)) in Hrun.
  - apply Hrun.
  - intros s1 s2 [HI HO] H. split; [by eapply Inv_Step|].
    destruct HI. by eapply OriginInv_Step.
  - split; [by apply Inv_spawn|]. intros e He. by apply elem_of_nil in He.
Qed.



(** * Further properties of the watcher *)

(** ** The handler does not block *)

(** X1: in every run of a new watcher the dispatcher thread comes back from
    every call of the handler: it is never left in [w.cacheError <- err]. *)
Theorem handler_never_blocks (w : userProjectWatcher)
    (cache : gmap string Namespace) (sched : list Action) (s : World) :
  fresh w →
  run sched (spawn w cache) = Some s →
  dispatcher s = Idle.
Proof.
  intros Hw Hrun. destruct (Inv_run w cache sched s Hw Hrun) as [_ HS _ _ _ _ _].
  apply HS.
Qed.

Lemma handler_never_blocks_witness :
  ∃ s, run [Notify grant_a; Notify grant_a; Notify grant_a] (spawn small projects)
       = Some s
       ∧ dispatcher s = Idle.
Proof.
  destruct (run [Notify grant_a; Notify grant_a; Notify grant_a]
              (spawn small projects)) as [s|] eqn:Hrun;
    [|vm_compute in Hrun; discriminate].
  exists s. split; [done|].
  exact (handler_never_blocks small projects _ s small_fresh Hrun).
Defined.

(** X2: called for a relevant change with [cacheIncoming] full and the slot of
    [cacheError] taken, the handler removes the watcher from the cache and
    then stays in the send: the error in the slot is not overwritten and no
    second error is recorded. *)
Theorem handler_blocks_on_taken_slot (s : World) (c : Change) :
  relevant s c = true →
  ¬ Chan.len (cacheIncoming (watcher s)) < Chan.cap (cacheIncoming (watcher s)) →
  ¬ Chan.len (cacheError (watcher s)) < Chan.cap (cacheError (watcher s)) →
  ∃ msg,
    dispatcher (handle s c) = BlockedOnCacheError msg
    ∧ cacheError (watcher (handle s c)) = cacheError (watcher s)
    ∧ cacheIncoming (watcher (handle s c)) = cacheIncoming (watcher s)
    ∧ watching (handle s c) = false
    ∧ trace (handle s c) = trace s ++ [ObsRemoveWatcher ByIntake].
Proof.
  intros Hr Hfull Hslot.
  destruct (relevant_handle s c Hr) as (e & msg & known' & He & ->).
  unfold enqueue_or_fail. simpl. rewrite try_send_full by exact Hfull.
  unfold send_cacheError. simpl. rewrite try_send_full by exact Hslot.
  exists msg. done.
Qed.

Lemma handler_blocks_on_taken_slot_witness :
  let w := mkWatcher "alice"%string [] (Chan.make 0)
             (Chan.Make ["add notification timeout"%string] 1 false)
             (Chan.make 0) (Chan.make 0) [] ∅ in
  ∃ msg, dispatcher (handle (spawn w projects) grant_a) = BlockedOnCacheError msg.
Proof.
  intros w.
  destruct (handler_blocks_on_taken_slot (spawn w projects) grant_a)
    as (msg & H & _).
  - vm_compute. reflexivity.
  - vm_compute. lia.
  - vm_compute. lia.
  - by exists msg.
Defined.

(** ** The error the consumer sees *)

Definition delete_timeout : string := "delete notification timeout".
Definition add_timeout : string := "add notification timeout".

(** X3: which error an overflow records: the one of the branch of the handler
    that found [cacheIncoming] full. *)
Theorem overflow_records_branch_error (s : World) (c : Change) :
  relevant s c = true →
  ¬ Chan.len (cacheIncoming (watcher s)) < Chan.cap (cacheIncoming (watcher s)) →
  Chan.buf (cacheError (watcher s)) = [] →
  Chan.cap (cacheError (watcher s)) = 1 →
  Chan.buf (cacheError (watcher (handle s c)))
  = [if removed (watcher s) (latestUsers c) (latestGroups c)
          (removedUsers c) (removedGroups c)
     then delete_timeout else add_timeout]
  ∧ enqueued (trace (handle s c)) = enqueued (trace s)
  ∧ watching (handle s c) = false.
Proof.
  intros Hr Hfull Hslot Hcap.
  assert (Hroom : Chan.len (cacheError (watcher s)) < Chan.cap (cacheError (watcher s))).
  { unfold Chan.len. rewrite Hslot, Hcap. simpl. lia. }
  unfold relevant in Hr. unfold handle, GroupMembershipChanged.
  destruct (removed _ _ _ _ _).
  - rewrite Hr. simpl. unfold enqueue_or_fail. simpl.
    rewrite try_send_full by exact Hfull.
    unfold send_cacheError. simpl. rewrite try_send_room by exact Hroom. simpl.
    rewrite Hslot. autorewrite with trace. simpl. by rewrite ?app_nil_r.
  - apply andb_true_iff in Hr as [-> [namespace Hn]%bool_decide_eq_true].
    rewrite Hn. unfold enqueue_or_fail. simpl.
    rewrite try_send_full by exact Hfull.
    unfold send_cacheError. simpl. rewrite try_send_room by exact Hroom. simpl.
    rewrite Hslot. autorewrite with trace. simpl. by rewrite ?app_nil_r.
Qed.

Lemma overflow_records_branch_error_witness :
  let w := mkWatcher "alice"%string [] (Chan.make 0) (Chan.make 1)
             (Chan.make 0) (Chan.make 0) [] {[ "a"%string ]} in
  Chan.buf (cacheError (watcher (handle (spawn w projects) revoke_a)))
  = [delete_timeout].
Proof.
  intros w.
  destruct (overflow_records_branch_error (spawn w projects) revoke_a) as [H _].
  - vm_compute. reflexivity.
  - vm_compute. lia.
  - reflexivity.
  - reflexivity.
  - exact H.
Defined.

(** The errors recorded are the two of the handler. *)
Definition MsgInv (s : World) : Prop :=
  ∀ m, m ∈ recorded (trace s) → m = delete_timeout ∨ m = add_timeout.

Lemma MsgInv_Step (s s' : World) :
  SlotInv s → MsgInv s → Step s s' → MsgInv s'.
Proof.
  unfold MsgInv. intros (Hd & _) HI H.
  step_inv H.
  all: try congruence.
  all: rewrite ?app_nil_r; try exact HI.
  intros m [Hm|Hm%list_elem_of_singleton]%elem_of_app; [by apply HI|].
  subst m. match goal with Hev : handler_event _ _ _ _ _ |- _ => destruct Hev end;
    [by left | by right].
Qed.

(** X4: in every run of a new watcher, an error event the consumer receives is
    the one [makeErrorEvent] makes of one of the two errors of the handler:
    a failure status with the message of the delete or of the add timeout. *)
Theorem error_event_carries_timeout (w : userProjectWatcher)
    (cache : gmap string Namespace) (sched : list Action) (s : World) (e : Event) :
  fresh w →
  run sched (spawn w cache) = Some s →
  e ∈ received (trace s) →
  Type_ e = Error →
  Object_ e = StatusFailure delete_timeout
  ∨ Object_ e = StatusFailure add_timeout.
Proof.
  intros Hw Hrun Hin He.
  destruct (Origin_run w cache sched s Hw Hrun e Hin He) as (m & -> & Hm).
  assert (HM : MsgInv s).
  { apply (run_Step_invariant (λ s, Inv w s ∧ MsgInv s)) in Hrun.
    - apply Hrun.
    - intros s1 s2 [HI HM] H. split; [by eapply Inv_Step|].
      destruct HI. by eapply MsgInv_Step.
    - split; [by apply Inv_spawn|]. intros m' Hm'. by apply elem_of_nil in Hm'. }
  destruct (HM m) as [->| ->]; [rewrite Hm; by apply list_elem_of_singleton| |];
    simpl; auto.
Qed.

Lemma error_event_carries_timeout_witness :
  let sched := [Notify grant_a; Notify grant_a; Notify revoke_a;
                Relay ArmSend; Relay ArmError; Relay ArmSend] in
  ∃ s, run sched (spawn small projects) = Some s
       ∧ Object_ (makeErrorEvent delete_timeout) = StatusFailure delete_timeout.
Proof.
  intros sched.
  destruct (run sched (spawn small projects)) as [s|] eqn:Hrun;
    [|vm_compute in Hrun; discriminate].
  exists s. split; [done|].
  destruct (error_event_carries_timeout small projects sched s
              (makeErrorEvent delete_timeout) small_fresh Hrun) as [H|H].
  - vm_compute in Hrun. injection Hrun as <-. vm_compute.
    apply list_elem_of_singleton. reflexivity.
  - reflexivity.
  - exact H.
  - discriminate H.
Defined.

(** ** Cancellation *)

(** An upper bound on the steps the relay goroutine needs to leave [Watch]
    once [userStop] is closed and no consumer receives: every [emit] of the
    first loop gives up on [userStop], the [select] takes its [userStop] arm,
    then the two deferred calls run. *)
Fixpoint stop_measure (initial : nat) (pc : RelayPC) : nat :=
  match pc with
  | AtInitial i => 2 * (initial - i) + 4
  | Emitting _ k => S (stop_measure initial k)
  | AtSelect => 3
  | DeferRemove => 2
  | DeferClose => 1
  | Exited => 0
  end.

Lemma recv_cacheError_frame (s s1 : World) (err : string) :
  recv_cacheError s = Some (err, s1) →
  initialProjects (watcher s1) = initialProjects (watcher s)
  ∧ userStop (watcher s1) = userStop (watcher s)
  ∧ outgoing (watcher s1) = outgoing (watcher s)
  ∧ received (trace s1) = received (trace s)
  ∧ enqueued (trace s1) = enqueued (trace s).
Proof.
  unfold recv_cacheError. intros H.
  repeat case_match; simplify_eq; simpl; try done.
  unfold send_cacheError. case_match; simpl; [|done].
  by autorewrite with trace.
Qed.

Lemma wind_down (n : nat) (s : World) :
  stop_measure (length (initialProjects (watcher s))) (relay s) ≤ n →
  stopped s = true →
  Chan.closed (outgoing (watcher s)) = false →
  ∃ m s',
    m ≤ n
    ∧ run (replicate m (Relay ArmStop)) s = Some s'
    ∧ relay s' = Exited
    ∧ received (trace s') = received (trace s)
    ∧ enqueued (trace s') = enqueued (trace s).
Proof.
  revert s. induction n as [n IH] using lt_wf_ind.
  intros s Hm Hst Hog.
  assert (Hadvance : ∀ s1,
            step (Relay ArmStop) s = Some s1 →
            stop_measure (length (initialProjects (watcher s1))) (relay s1)
            < stop_measure (length (initialProjects (watcher s))) (relay s) →
            stopped s1 = true →
            (relay s1 ≠ Exited → Chan.closed (outgoing (watcher s1)) = false) →
            received (trace s1) = received (trace s) →
            enqueued (trace s1) = enqueued (trace s) →
            ∃ m s',
              m ≤ n
              ∧ run (replicate m (Relay ArmStop)) s = Some s'
              ∧ relay s' = Exited
              ∧ received (trace s') = received (trace s)
              ∧ enqueued (trace s') = enqueued (trace s)).
  { intros s1 Hs Hlt Hst1 Hog1 Hrcv1 Henq1.
    assert (relay s1 = Exited ∨ relay s1 ≠ Exited) as [Hx|Hx]
      by (destruct (relay s1); auto).
    - exists 1, s1. split_and?; try done; [lia|].
      simpl replicate. simpl run. simpl in Hs. by rewrite Hs.
    - destruct (IH (stop_measure (length (initialProjects (watcher s1))) (relay s1)))
        with (s := s1) as (m & s' & Hle & Hrun & Hrl & Hrcv & Henq);
        try done; [lia|by apply Hog1|].
      exists (S m), s'. split_and?; try done; try congruence; [lia|].
      simpl replicate. simpl run. simpl in Hs. rewrite Hs. exact Hrun. }
  unfold stopped in Hst.
  destruct (relay s) as [i|e k| | | |] eqn:Hpc.
  - (* at the top of the first loop *)
    destruct (initialProjects (watcher s) !! i) as [namespace|] eqn:Hi.
    + assert (Hlt : i < length (initialProjects (watcher s)))
        by (by eapply lookup_lt_Some).
      destruct (recv_cacheError s) as [[err s1]|] eqn:Hrecv.
      * destruct (recv_cacheError_frame s s1 err Hrecv)
          as (Hinit & Hus & Hog1 & Hrcv1 & Henq1).
        apply (Hadvance (set_relay (Emitting (makeErrorEvent err) DeferRemove) s1)).
        -- simpl. unfold Watch_step. by rewrite Hpc, Hi, Hrecv.
        -- cbn [relay watcher set_relay stop_measure]. rewrite ?Hinit. lia.
        -- unfold stopped. cbn [watcher set_relay]. by rewrite Hus.
        -- intros _. cbn [watcher set_relay]. by rewrite Hog1.
        -- exact Hrcv1.
        -- exact Henq1.
      * apply (Hadvance (set_relay (Emitting (AddedEvent namespace) (AtInitial (S i))) s));
          try done.
        -- simpl. unfold Watch_step. by rewrite Hpc, Hi, Hrecv.
        -- simpl. lia.
    + apply (Hadvance (set_relay AtSelect s)); try done.
      * simpl. unfold Watch_step. by rewrite Hpc, Hi.
      * simpl. lia.
  - (* inside [emit] *)
    apply (Hadvance (set_relay k s)); try done.
    + simpl. unfold Watch_step, emit. by rewrite Hpc, Hst.
    + simpl. lia.
  - (* at the [select] *)
    apply (Hadvance (set_relay DeferRemove s)); try done.
    + simpl. unfold Watch_step. by rewrite Hpc, Hst.
    + simpl. lia.
  - apply (Hadvance (set_relay DeferClose (RemoveWatcher ByRelay s))); try done.
    + simpl. unfold Watch_step. by rewrite Hpc.
    + simpl. lia.
    + simpl. by autorewrite with trace.
    + simpl. by autorewrite with trace.
  - apply (Hadvance (set_relay Exited
             (log ObsCloseOutgoing
                (with_watcher (set_outgoing (closed_of (outgoing (watcher s)))) s))));
      try done.
    + simpl. unfold Watch_step, Chan.close. by rewrite Hpc, Hog.
    + simpl. lia.
    + simpl. by autorewrite with trace.
    + simpl. by autorewrite with trace.
  - exists 0, s. split_and?; try done; lia.
Qed.

(** X5: once [Stop] has been called, the relay goroutine of a new watcher leaves
    [Watch] on its own, whatever the run so far and with no consumer
    receiving: within two steps for each namespace of the snapshot and five
    more it has exited, has delivered nothing more on the way, and has
    removed the watcher and closed [outgoing] once each. *)
Theorem Stop_ends_Watch (w : userProjectWatcher) (cache : gmap string Namespace)
    (sched : list Action) (s : World) :
  fresh w →
  run sched (spawn w cache) = Some s →
  stopped s = true →
  ∃ m s',
    m ≤ 2 * length (initialProjects w) + 5
    ∧ run (replicate m (Relay ArmStop)) s = Some s'
    ∧ relay s' = Exited
    ∧ received (trace s') = received (trace s)
    ∧ removals ByRelay (trace s') = 1
    ∧ closings (trace s') = 1
    ∧ Chan.closed (outgoing (watcher s')) = true.
Proof.
  intros Hw Hrun Hst.
  destruct (Inv_run w cache sched s Hw Hrun) as [HF _ HX _ _ _ _].
  destruct HF as (_ & _ & Hinit & _).
  destruct HX as (Hok & Hrm & Hcl & Hog).
  assert (relay s = Exited ∨ relay s ≠ Exited) as [Hx|Hx]
    by (destruct (relay s); auto).
  { exists 0, s. rewrite Hx in *. split_and?; try done; lia. }
  destruct (wind_down (2 * length (initialProjects w) + 5) s)
    as (m & s' & Hle & Hrun' & Hrl & Hrcv & _); try done.
  { rewrite Hinit. destruct (relay s) as [i|e k| | | |]; simpl in *; try lia.
    destruct k; simpl in *; try done; lia. }
  { rewrite Hog. by destruct (relay s). }
  exists m, s'. split_and?; try done.
  all: assert (Hall : run (sched ++ replicate m (Relay ArmStop)) (spawn w cache) = Some s')
    by (rewrite run_app, Hrun; exact Hrun').
  all: destruct (Inv_run w cache _ s' Hw Hall) as [_ _ HX' _ _ _ _].
  all: destruct HX' as (_ & Hrm' & Hcl' & Hog'); rewrite Hrl in *; done.
Qed.

(** The witness of [Stop_ends_Watch]: a watcher with a snapshot of one
    namespace and a granted change in its buffer is stopped before the relay
    goroutine has moved. *)
Lemma Stop_ends_Watch_witness :
  let w := mkWatcher "alice"%string ["dev"%string] (Chan.make 2) (Chan.make 1)
             (Chan.make 0) (Chan.make 0) [mkNamespace "a"%string "1"%string]
             {[ "a"%string ]} in
  ∃ s, run [Notify grant_a; CallStop] (spawn w projects) = Some s
    ∧ ∃ m s', m ≤ 7
      ∧ run (replicate m (Relay ArmStop)) s = Some s'
      ∧ relay s' = Exited
      ∧ received (trace s') = [].
Proof.
  intros w.
  destruct (run [Notify grant_a; CallStop] (spawn w projects)) as [s|] eqn:Hrun;
    [|vm_compute in Hrun; discriminate].
  exists s. split; [done|].
  destruct (Stop_ends_Watch w projects [Notify grant_a; CallStop] s)
    as (m & s' & Hle & Hrun' & Hrl & Hrcv & _).
  - by repeat split.
  - exact Hrun.
  - vm_compute in Hrun. by simplify_eq.
  - exists m, s'. split_and?; try done.
    rewrite Hrcv. vm_compute in Hrun. by simplify_eq.
Defined.

(** ** Order of delivery in every run *)

(** The events of a list that are not error events. *)
Definition events (l : list Event) : list Event :=
  filter (λ e, Type_ e ≠ Error) l.

Lemma events_app (l1 l2 : list Event) : events (l1 ++ l2) = events l1 ++ events l2.
Proof. apply filter_app. Qed.

Lemma events_sublist (l : list Event) : events l `sublist_of` l.
Proof. apply sublist_filter. Qed.

Lemma events_makeErrorEvent (m : string) (l : list Event) :
  events (makeErrorEvent m :: l) = events l.
Proof. unfold events. by rewrite filter_cons_False by (simpl; auto). Qed.

Lemma events_noError (l : list Event) : noError l → events l = l.
Proof.
  unfold noError, events. induction 1 as [|e l He _ IH]; [done|].
  by rewrite filter_cons_True, IH.
Qed.

(** What was received and what is pending, error events apart, is what is
    left of the snapshot and of the events enqueued after some were
    dropped. *)
Definition SubInv (s : World) : Prop :=
  events (received (trace s)) ++ events (pending s)
  `sublist_of` snapshot (watcher s) ++ enqueued (trace s).

Lemma events_cons (e : Event) (l : list Event) :
  events (e :: l) = events [e] ++ events l.
Proof. apply (events_app [e] l). Qed.

Lemma SubInv_Step (s s' : World) :
  SlotInv s → relay_ok (relay s) → SubInv s → Step s s' → SubInv s'.
Proof.
  unfold SubInv, pending, snapshot. intros (Hd & _) Hok HI H.
  step_inv H.
  all: try congruence.
  all: try (match goal with Hpc : relay _ = _ |- _ => rewrite Hpc in * end).
  all: try (match goal with
            | Hb : Chan.buf (cacheIncoming _) = _ :: _ |- _ => rewrite Hb in *
            end).
  all: simpl in *.
  all: try (match goal with
            | Hn : _ !! _ = None |- _ =>
                apply lookup_ge_None in Hn; rewrite drop_ge in HI by done
            | Hn : _ !! _ = Some _ |- _ => rewrite (drop_S _ _ _ Hn) in HI
            end).
  all: simpl in *; try exact HI.
  all: rewrite ?events_app in *.
  - (* the handler enqueues *)
    rewrite !(assoc_L (++)). apply sublist_app; [|apply events_sublist].
    by rewrite <- !(assoc_L (++)).
  - (* the error found in [cacheError] takes the place of what was upcoming *)
    rewrite events_makeErrorEvent. etrans; [|exact HI].
    apply sublist_app; [done|]. by apply sublist_inserts_l.
  - (* [emit] hands the event over *)
    destruct k; simpl in *; try done.
    all: rewrite ?(events_cons e (_ <$> _)) in HI.
    all: rewrite <- ?(assoc_L (++)) in HI; by rewrite <- ?(assoc_L (++)).
  - (* [emit] gives up on [userStop] *)
    etrans; [|exact HI]. apply sublist_app; [done|].
    destruct k; simpl in *; try done.
    all: rewrite ?(events_cons e (_ <$> _)).
    all: rewrite <- ?(assoc_L (++)); try by apply sublist_inserts_l.
    all: apply sublist_nil_l.
Qed.

(** As long as nobody has called [Stop], nothing is skipped: in the two
    loops what was received and what is pending is all of the snapshot and
    of the events enqueued, and after them the events received are a
    prefix of it. *)
Definition PrefInv (s : World) : Prop :=
  stopped s = false →
  if forwarding (relay s)
  then received (trace s) ++ pending s = snapshot (watcher s) ++ enqueued (trace s)
  else events (received (trace s))
       `prefix_of` snapshot (watcher s) ++ enqueued (trace s).

Lemma PrefInv_Step (s s' : World) :
  SlotInv s → ErrInv s → TermInv s → PrefInv s → Step s s' → PrefInv s'.
Proof.
  unfold PrefInv, pending, snapshot, stopped.
  intros (Hd & _) (_ & Hok & _ & Hrecv) (_ & Hterm) HI H.
  unfold term_ok in Hterm.
  step_inv H.
  all: try congruence.
  all: intros Hst; try done; try congruence.
  all: specialize (HI Hst).
  all: try (match goal with Hpc : relay _ = _ |- _ => rewrite Hpc in * end).
  all: try (match goal with
            | Hb : Chan.buf (cacheIncoming _) = _ :: _ |- _ => rewrite Hb in *
            end).
  all: simpl in *.
  all: try (match goal with
            | Hn : _ !! _ = None |- _ =>
                apply lookup_ge_None in Hn; rewrite drop_ge in HI by done
            | Hn : _ !! _ = Some _ |- _ => rewrite (drop_S _ _ _ Hn) in HI
            end).
  all: simpl in *; try exact HI.
  - (* the handler enqueues *)
    destruct (forwarding (relay s)).
    + rewrite !(assoc_L (++)). rewrite !(assoc_L (++)) in HI. by rewrite HI.
    + rewrite (assoc_L (++)). by apply prefix_app_r.
  - (* the relay goroutine finds the error *)
    match goal with
    | Hh : at_loop_head (relay ?x) = true |- _ =>
        destruct (relay x); try done; simpl in *
    end.
    all: destruct Hrecv as [Hrecv|[? _]]; [|done].
    all: rewrite (events_noError _ Hrecv), <- HI; by apply prefix_app_r.
  - (* [emit] hands the event over *)
    destruct k; simpl in *; try done.
    + by rewrite <- (assoc_L (++)).
    + by rewrite <- (assoc_L (++)).
    + destruct Hterm as (m & -> & _).
      by rewrite events_app, events_makeErrorEvent, app_nil_r.
Qed.

(** X6: in every run of a new watcher, whatever [Stop] and an overflow do to
    it, the consumer receives the events of the snapshot and those the
    handler enqueued in their order: some may be missing, none is invented,
    repeated or out of place. *)
Theorem received_in_order_always (w : userProjectWatcher)
    (cache : gmap string Namespace) (sched : list Action) (s : World) :
  fresh w →
  run sched (spawn w cache) = Some s →
  events (received (trace s)) `sublist_of` snapshot w ++ enqueued (trace s).
Proof.
  intros Hw Hrun.
  assert (HI : Inv w s ∧ SubInv s).
  { apply (run_Step_invariant (λ s, Inv w s ∧ SubInv s)) in Hrun; [done| |].
    - intros s1 s2 [HI HS] H. split; [by eapply Inv_Step|].
      destruct HI as [_ HSl [Hok _] _ _ _ _]. by eapply SubInv_Step.
    - split; [by apply Inv_spawn|].
      destruct Hw as (Hci & _).
      unfold SubInv, pending, snapshot. simpl. rewrite Hci, drop_0, app_nil_r.
      apply events_sublist. }
  destruct HI as [[(_ & _ & Hinit & _) _ _ _ _ _ _] HS].
  unfold SubInv, snapshot in *. rewrite Hinit in HS.
  etrans; [|exact HS]. by apply sublist_inserts_r.
Qed.

(** The witness of [received_in_order_always]: [Stop] comes while the relay
    goroutine is handing over the snapshot; the goroutine gives that event
    up and still delivers the one it finds in the buffer. *)
Lemma received_in_order_always_witness :
  let w := mkWatcher "alice"%string ["dev"%string] (Chan.make 2) (Chan.make 1)
             (Chan.make 0) (Chan.make 0) [mkNamespace "a"%string "1"%string]
             {[ "a"%string ]} in
  let sched := [Notify grant_a; Relay ArmSend; CallStop; Relay ArmStop;
                Relay ArmSend; Relay ArmIncoming; Relay ArmSend] in
  ∃ s, run sched (spawn w projects) = Some s
       ∧ length (received (trace s)) = 1
       ∧ events (received (trace s)) `sublist_of` snapshot w ++ enqueued (trace s).
Proof.
  intros w sched.
  destruct (run sched (spawn w projects)) as [s|] eqn:Hrun;
    [|vm_compute in Hrun; discriminate].
  exists s. split; [done|]. split.
  - vm_compute in Hrun. by simplify_eq.
  - apply (received_in_order_always w projects sched s); [by repeat split|exact Hrun].
Defined.

(** X7: as long as nobody has called [Stop], the consumer misses nothing on the
    way: what it has received, the error event apart, is a prefix of the
    snapshot followed by the events the handler enqueued, also after an
    overflow. *)
Theorem nothing_skipped_before_Stop (w : userProjectWatcher)
    (cache : gmap string Namespace) (sched : list Action) (s : World) :
  fresh w →
  run sched (spawn w cache) = Some s →
  stopped s = false →
  events (received (trace s)) `prefix_of` snapshot w ++ enqueued (trace s).
Proof.
  intros Hw Hrun Hst.
  assert (HI : Inv w s ∧ PrefInv s).
  { apply (run_Step_invariant (λ s, Inv w s ∧ PrefInv s)) in Hrun; [done| |].
    - intros s1 s2 [HI HP] H. split; [by eapply Inv_Step|].
      destruct HI. by eapply PrefInv_Step.
    - split; [by apply Inv_spawn|].
      destruct Hw as (Hci & _).
      unfold PrefInv, pending, snapshot. simpl. intros _.
      by rewrite Hci, drop_0, app_nil_r. }
  destruct HI as [[(_ & _ & Hinit & _) _ _ (_ & _ & _ & Hrecv) _ _ _] HP].
  specialize (HP Hst). unfold snapshot in *. rewrite Hinit in HP.
  destruct (forwarding (relay s)) eqn:Hfw; [|exact HP].
  destruct Hrecv as [Hrecv|[Hret _]].
  - rewrite (events_noError _ Hrecv), <- HP. by apply prefix_app_r.
  - destruct (relay s) as [| ? []| | | |]; simpl in *; done.
Qed.

(** The witness of [nothing_skipped_before_Stop]: the buffer of two
    overflows, and the relay goroutine still forwards an event before it
    turns to the error. *)
Lemma nothing_skipped_before_Stop_witness :
  let sched := [Notify grant_a; Notify grant_a; Notify revoke_a;
                Relay ArmSend; Relay ArmIncoming; Relay ArmSend;
                Relay ArmError; Relay ArmSend] in
  ∃ s, run sched (spawn small projects) = Some s
       ∧ length (received (trace s)) = 2
       ∧ events (received (trace s)) `prefix_of` snapshot small ++ enqueued (trace s).
Proof.
  intros sched.
  destruct (run sched (spawn small projects)) as [s|] eqn:Hrun;
    [|vm_compute in Hrun; discriminate].
  exists s. split; [done|]. split.
  - vm_compute in Hrun. by simplify_eq.
  - apply (nothing_skipped_before_Stop small projects sched s);
      [exact small_fresh | exact Hrun |].
    vm_compute in Hrun. by simplify_eq.
Defined.

(** ** Successive calls of the handler *)

(** The world after a call with access that found the namespace and room in
    [cacheIncoming]. *)
Definition granted (s : World) (n : string) (namespace : Namespace) : World :=
  log (ObsEnqueue {| Type_ := if Has (knownProjects (watcher s)) n
                              then Modified else Added;
                     Object_ := ConvertNamespace namespace |})
    (with_watcher
       (λ w, set_cacheIncoming
               (push (cacheIncoming w)
                  {| Type_ := if Has (knownProjects (watcher s)) n
                              then Modified else Added;
                     Object_ := ConvertNamespace namespace |})
               (set_knownProjects (Insert (knownProjects w) (Name namespace)) w))
       s).

(** The world after a removal of a known namespace that found room. *)
Definition revoked (s : World) (n : string) : World :=
  log (ObsEnqueue {| Type_ := Deleted;
                     Object_ := ConvertNamespace (mkNamespace n EmptyString) |})
    (with_watcher
       (λ w, set_cacheIncoming
               (push (cacheIncoming w)
                  {| Type_ := Deleted;
                     Object_ := ConvertNamespace (mkNamespace n EmptyString) |})
               (set_knownProjects (Delete (knownProjects w) n) w))
       s).

Lemma handle_granted (s : World) (c : Change) (namespace : Namespace) :
  hasAccess (watcher s) (latestUsers c) (latestGroups c) = true →
  GetNamespace (projectCache s) (namespaceName c) = Some namespace →
  Chan.len (cacheIncoming (watcher s)) < Chan.cap (cacheIncoming (watcher s)) →
  handle s c = granted s (namespaceName c) namespace.
Proof.
  intros Ha Hget Hroom. unfold handle, GroupMembershipChanged, removed.
  rewrite Ha, Hget. simpl. unfold enqueue_or_fail. simpl.
  rewrite try_send_room by exact Hroom. done.
Qed.

Lemma handle_revoked (s : World) (c : Change) :
  removed (watcher s) (latestUsers c) (latestGroups c)
    (removedUsers c) (removedGroups c) = true →
  namespaceName c ∈ knownProjects (watcher s) →
  Chan.len (cacheIncoming (watcher s)) < Chan.cap (cacheIncoming (watcher s)) →
  handle s c = revoked s (namespaceName c).
Proof.
  intros Hr Hk%Has_true Hroom. unfold handle, GroupMembershipChanged.
  rewrite Hr, Hk. simpl. unfold enqueue_or_fail. simpl.
  rewrite try_send_room by exact Hroom. done.
Qed.

(** X8: two notifications of access in a row: when the project cache hands back
    the namespace under the name announced, the second event is [Modified]
    whatever the first was, and the name is known afterwards. *)
Theorem repeated_access_is_Modified (s : World) (c : Change) (namespace : Namespace) :
  hasAccess (watcher s) (latestUsers c) (latestGroups c) = true →
  GetNamespace (projectCache s) (namespaceName c) = Some namespace →
  Name namespace = namespaceName c →
  Chan.len (cacheIncoming (watcher s)) + 2 ≤ Chan.cap (cacheIncoming (watcher s)) →
  enqueued (trace (handle (handle s c) c))
  = enqueued (trace s)
    ++ [ {| Type_ := if bool_decide (namespaceName c ∈ knownProjects (watcher s))
                     then Modified else Added;
            Object_ := ConvertNamespace namespace |};
         {| Type_ := Modified; Object_ := ConvertNamespace namespace |} ]
  ∧ knownProjects (watcher (handle (handle s c) c))
    = {[ namespaceName c ]} ∪ knownProjects (watcher s).
Proof.
  intros Ha Hget Hname Hroom.
  rewrite (handle_granted s c namespace) by (done || lia).
  rewrite (handle_granted _ c namespace);
    [| done | done | unfold granted, push, Chan.len in *; simpl;
                     rewrite length_app; simpl; lia].
  unfold granted at 1 2. simpl. autorewrite with trace. simpl.
  unfold granted. simpl. autorewrite with trace. simpl.
  rewrite Hname.
  assert (Hin : Has (Insert (knownProjects (watcher s)) (namespaceName c))
                  (namespaceName c) = true).
  { apply Has_true. unfold Insert. apply elem_of_union_l, elem_of_singleton. done. }
  rewrite Hin. unfold Has, Insert. split.
  - by rewrite <- (assoc_L (++)).
  - apply set_eq. intros x. rewrite !elem_of_union, !elem_of_singleton. tauto.
Qed.

Lemma repeated_access_is_Modified_witness :
  let w := mkWatcher "alice"%string ["dev"%string] (Chan.make 2) (Chan.make 1)
                     (Chan.make 0) (Chan.make 0) [] ∅ in
  let a := mkNamespace "a"%string "7"%string in
  enqueued (trace (handle (handle (spawn w projects) grant_a) grant_a))
  = [] ++ [ {| Type_ := Added; Object_ := ConvertNamespace a |};
            {| Type_ := Modified; Object_ := ConvertNamespace a |} ].
Proof.
  intros w a.
  destruct (repeated_access_is_Modified (spawn w projects) grant_a a) as [H _].
  - vm_compute. reflexivity.
  - vm_compute. reflexivity.
  - reflexivity.
  - vm_compute. lia.
  - exact H.
Defined.

(** X9: access and then removal for the same name: the handler enqueues the
    event of the access followed by [Deleted], and the name is not known
    afterwards; [knownProjects] is back to what it was if the name was not
    in it. *)
Theorem access_then_removal (s : World) (c1 c2 : Change) (namespace : Namespace) :
  namespaceName c2 = namespaceName c1 →
  hasAccess (watcher s) (latestUsers c1) (latestGroups c1) = true →
  removed (watcher s) (latestUsers c2) (latestGroups c2)
    (removedUsers c2) (removedGroups c2) = true →
  GetNamespace (projectCache s) (namespaceName c1) = Some namespace →
  Name namespace = namespaceName c1 →
  Chan.len (cacheIncoming (watcher s)) + 2 ≤ Chan.cap (cacheIncoming (watcher s)) →
  enqueued (trace (handle (handle s c1) c2))
  = enqueued (trace s)
    ++ [ {| Type_ := if bool_decide (namespaceName c1 ∈ knownProjects (watcher s))
                     then Modified else Added;
            Object_ := ConvertNamespace namespace |};
         {| Type_ := Deleted;
            Object_ := ConvertNamespace (mkNamespace (namespaceName c1) EmptyString) |} ]
  ∧ knownProjects (watcher (handle (handle s c1) c2))
    = knownProjects (watcher s) ∖ {[ namespaceName c1 ]}
  ∧ (namespaceName c1 ∉ knownProjects (watcher s) →
     knownProjects (watcher (handle (handle s c1) c2)) = knownProjects (watcher s)).
Proof.
  intros Hsame Ha Hr Hget Hname Hroom.
  rewrite (handle_granted s c1 namespace) by (done || lia).
  rewrite (handle_revoked _ c2);
    [| exact Hr
     | rewrite Hsame; unfold granted; simpl; unfold Insert; rewrite Hname;
       apply elem_of_union_l, elem_of_singleton; done
     | unfold granted, push, Chan.len in *; simpl; rewrite length_app; simpl; lia].
  unfold revoked, granted. simpl. autorewrite with trace. simpl.
  rewrite Hsame, Hname. unfold Has, Insert, Delete.
  assert (Hk : ({[namespaceName c1]} ∪ knownProjects (watcher s)) ∖ {[namespaceName c1]}
               = knownProjects (watcher s) ∖ {[namespaceName c1]}).
  { apply set_eq. intros x.
    rewrite !elem_of_difference, elem_of_union, !elem_of_singleton. tauto. }
  split_and?.
  - by rewrite <- (assoc_L (++)).
  - exact Hk.
  - intros Hn. rewrite Hk. apply set_eq. intros x.
    rewrite elem_of_difference, elem_of_singleton. split; [tauto|].
    intros Hx. split; [done|]. congruence.
Qed.

Lemma access_then_removal_witness :
  let w := mkWatcher "alice"%string ["dev"%string] (Chan.make 2) (Chan.make 1)
                     (Chan.make 0) (Chan.make 0) [] {[ "b"%string ]} in
  knownProjects (watcher (handle (handle (spawn w projects) grant_a) revoke_a))
  = {[ "b"%string ]}.
Proof.
  intros w.
  destruct (access_then_removal (spawn w projects) grant_a revoke_a
              (mkNamespace "a"%string "7"%string)) as (_ & _ & H).
  - reflexivity.
  - vm_compute. reflexivity.
  - vm_compute. reflexivity.
  - vm_compute. reflexivity.
  - reflexivity.
  - vm_compute. lia.
  - apply H. apply Has_false. vm_compute. reflexivity.
Defined.

(** X10: access wins over removal: for a watcher that has access to the
    namespace, by its user or by one of its groups, what the handler does
    depends neither on the sets of removed users and groups nor on those of
    added ones. *)
Theorem access_overrides_removal (s : World) (namespaceName : string)
    (latestUsers lastestGroups removedUsers removedGroups addedUsers addedGroups
     removedUsers' removedGroups' addedUsers' addedGroups' : gset string) :
  hasAccess (watcher s) latestUsers lastestGroups = true →
  GroupMembershipChanged s namespaceName latestUsers lastestGroups
    removedUsers removedGroups addedUsers addedGroups
  = GroupMembershipChanged s namespaceName latestUsers lastestGroups
      removedUsers' removedGroups' addedUsers' addedGroups'.
Proof.
  intros Ha. unfold GroupMembershipChanged, removed. by rewrite Ha.
Qed.

Lemma access_overrides_removal_witness :
  let w := mkWatcher "alice"%string ["dev"%string] (Chan.make 2) (Chan.make 1)
                     (Chan.make 0) (Chan.make 0) [] {[ "a"%string ]} in
  GroupMembershipChanged (spawn w projects) "a"%string
    ∅ {[ "dev"%string ]} {[ "alice"%string ]} ∅ ∅ ∅
  = GroupMembershipChanged (spawn w projects) "a"%string
      ∅ {[ "dev"%string ]} ∅ ∅ ∅ ∅.
Proof.
  intros w. apply access_overrides_removal. vm_compute. reflexivity.
Defined.

(** ** From the constructor to the consumer *)

(** X11: a new subscriber and the snapshot: the watcher the constructor makes
    from what [List] handed back is new, and its relay goroutine, with a
    consumer that receives, delivers one [Added] event for each namespace of
    the list, in the order of the list, if [includeAllExistingProjects] is
    set, and nothing if it is not; it then waits at its [select], and the
    names of the list are the known ones. *)
Theorem constructor_snapshot_is_delivered (username : string) (groups : list string)
    (authCache : WatchableCache) (includeAllExistingProjects : bool)
    (namespaces : NamespaceList) (err : option string)
    (cache : gmap string Namespace) :
  List authCache username groups = (Some namespaces, err) →
  ∃ w sched s,
    NewUserProjectWatcher username groups authCache includeAllExistingProjects
    = Some w
    ∧ Forall is_relay sched
    ∧ run sched (spawn w cache) = Some s
    ∧ received (trace s)
      = (if includeAllExistingProjects then AddedEvent <$> Items namespaces else [])
    ∧ relay s = AtSelect
    ∧ pending s = []
    ∧ knownProjects (watcher s) = list_to_set (Name <$> Items namespaces).
Proof.
  intros HList.
  destruct (NewUserProjectWatcher username groups authCache includeAllExistingProjects)
    as [w|] eqn:Hnew;
    [|unfold NewUserProjectWatcher in Hnew; rewrite HList in Hnew; done].
  destruct (NewUserProjectWatcher_fresh _ _ _ _ _ Hnew) as [(Hci & Hce & Hog & Hus) _].
  assert (Hw : initialProjects w
               = (if includeAllExistingProjects then Items namespaces else [])
               ∧ knownProjects w = list_to_set (Name <$> Items namespaces)).
  { unfold NewUserProjectWatcher in Hnew. rewrite HList in Hnew.
    injection Hnew as <-. simpl.
    by rewrite foldl_Insert_names, (right_id_L ∅ (∪)). }
  destruct Hw as [Hinit Hknown].
  destruct (drain (drain_measure (spawn w cache)) (spawn w cache))
    as (sched & s & Hrel & Hrun & Hrcv & Hpend & Hrl & _ & Hwt); try done.
  { simpl. by rewrite Hce. }
  exists w, sched, s. split_and?; try done.
  - rewrite Hrcv. unfold pending. simpl. rewrite Hci, drop_0, app_nil_r, Hinit.
    by destruct includeAllExistingProjects.
  - rewrite Hwt. simpl. exact Hknown.
Qed.

(** The witness of [constructor_snapshot_is_delivered]: [List] hands back
    two namespaces. *)
Lemma constructor_snapshot_is_delivered_witness :
  let items := [mkNamespace "a"%string "1"%string; mkNamespace "b"%string "2"%string] in
  let authCache := mkWatchableCache (λ _ _, (Some (mkNamespaceList items), None)) in
  ∃ w sched s,
    NewUserProjectWatcher "alice"%string [] authCache true = Some w
    ∧ run sched (spawn w ∅) = Some s
    ∧ received (trace s) = AddedEvent <$> items.
Proof.
  intros items authCache.
  destruct (constructor_snapshot_is_delivered "alice"%string [] authCache true
              (mkNamespaceList items) None ∅)
    as (w & sched & s & Hnew & _ & Hrun & Hrcv & _).
  - reflexivity.
  - exists w, sched, s. split; [exact Hnew|]. split; [exact Hrun | exact Hrcv].
Defined.

(** ** After [Watch] has returned *)

(** Once the deferred [RemoveWatcher] has run, the cache does not hold the
    watcher. *)
Definition GoneInv (s : World) : Prop :=
  removed_by_relay (relay s) = 1 → watching s = false.

Lemma GoneInv_Step (s s' : World) :
  relay_ok (relay s) → GoneInv s → Step s s' → GoneInv s'.
Proof.
  unfold GoneInv. intros Hok HI H.
  step_inv H.
  all: try (match goal with Hpc : relay _ = _ |- _ => rewrite Hpc in * end).
  all: simpl in *; try done; try (intros; by apply HI).
  all: destruct k; simpl in *; try done.
Qed.

(** What stays as it is in a step of a world whose relay goroutine has
    exited and whose watcher the cache does not hold. *)
Definition same_watch (s s' : World) : Prop :=
  trace s' = trace s
  ∧ relay s' = relay s
  ∧ watching s' = watching s
  ∧ knownProjects (watcher s') = knownProjects (watcher s)
  ∧ cacheIncoming (watcher s') = cacheIncoming (watcher s)
  ∧ cacheError (watcher s') = cacheError (watcher s)
  ∧ outgoing (watcher s') = outgoing (watcher s).

Lemma exited_Step (s s' : World) :
  relay s = Exited → watching s = false → Step s s' → same_watch s s'.
Proof.
  unfold same_watch. intros Hx Hw H.
  destruct H; simpl; try done; try congruence.
  all: rewrite Hx in *; done.
Qed.

(** X12: when [Watch] has returned, the watcher is out of the game: the cache
    does not call its handler, the relay goroutine has no step left, and
    whatever else happens, a [Stop] or a change of the project cache,
    nothing is delivered, enqueued or recorded any more, and
    [knownProjects] and the channels other than [userStop] stay as they
    are, [outgoing] closed. *)
Theorem exited_watcher_is_inert (w : userProjectWatcher)
    (cache : gmap string Namespace) (sched : list Action) (s : World) :
  fresh w →
  run sched (spawn w cache) = Some s →
  relay s = Exited →
  watching s = false
  ∧ Chan.closed (outgoing (watcher s)) = true
  ∧ (∀ c, step (Notify c) s = None)
  ∧ (∀ arm, step (Relay arm) s = None)
  ∧ ∀ sched' s', run sched' s = Some s' → same_watch s s'.
Proof.
  intros Hw Hrun Hx.
  assert (HI : Inv w s ∧ GoneInv s).
  { apply (run_Step_invariant (λ s, Inv w s ∧ GoneInv s)) in Hrun; [done| |].
    - intros s1 s2 [HI HG] H. split; [by eapply Inv_Step|].
      destruct HI as [_ _ [Hok _] _ _ _ _]. by eapply GoneInv_Step.
    - split; [by apply Inv_spawn|]. unfold GoneInv. simpl. done. }
  destruct HI as [[_ _ (_ & _ & _ & Hog) _ _ _ _] HG].
  unfold GoneInv in HG. rewrite Hx in *. simpl in *.
  specialize (HG eq_refl).
  split_and?; try done.
  - intros c. simpl. by rewrite HG.
  - intros arm. simpl. unfold Watch_step. by rewrite Hx.
  - intros sched'. clear Hrun Hog. revert s Hx HG.
    induction sched' as [|a sched' IH]; intros s Hx HG s' Hrun'; simpl in Hrun'.
    + simplify_eq. by repeat split.
    + destruct (step a s) as [s1|] eqn:Hs; simpl in Hrun'; [|done].
      destruct (exited_Step s s1 Hx HG (step_Step _ _ _ Hs))
        as (H1 & H2 & H3 & H4 & H5 & H6 & H7).
      destruct (IH s1) with (s' := s') as (G1 & G2 & G3 & G4 & G5 & G6 & G7);
        try congruence.
      unfold same_watch. split_and?; congruence.
Qed.

(** The witness of [exited_watcher_is_inert]: a watcher is stopped, its
    relay goroutine returns, and [Stop] is called once more. *)
Lemma exited_watcher_is_inert_witness :
  let sched := [CallStop; Relay ArmStop; Relay ArmStop; Relay ArmStop; Relay ArmStop] in
  ∃ s s', run sched (spawn small projects) = Some s
          ∧ run [CallStop; CacheUpdate ∅] s = Some s'
          ∧ same_watch s s'.
Proof.
  intros sched.
  destruct (run sched (spawn small projects)) as [s|] eqn:Hrun;
    [|vm_compute in Hrun; discriminate].
  destruct (run [CallStop; CacheUpdate ∅] s) as [s'|] eqn:Hrun';
    [|vm_compute in Hrun; simplify_eq; vm_compute in Hrun'; discriminate].
  exists s, s'. split; [done|]. split; [done|].
  destruct (exited_watcher_is_inert small projects sched s small_fresh Hrun)
    as (_ & _ & _ & _ & H).
  - vm_compute in Hrun. by simplify_eq.
  - by apply (H [CallStop; CacheUpdate ∅]).
Defined.

(** ** The calls of [RemoveWatcher] *)

(** X13: in every run of a new watcher the membership cache sees at most two
    calls of [RemoveWatcher] for it, at most one from the handler and at
    most one from the relay goroutine, and after the first of them it does
    not hold the watcher. *)
Theorem RemoveWatcher_at_most_twice (w : userProjectWatcher)
    (cache : gmap string Namespace) (sched : list Action) (s : World) :
  fresh w →
  run sched (spawn w cache) = Some s →
  removals ByIntake (trace s) ≤ 1
  ∧ removals ByRelay (trace s) ≤ 1
  ∧ (0 < removals ByIntake (trace s) + removals ByRelay (trace s) →
     watching s = false).
Proof.
  intros Hw Hrun.
  assert (HI : Inv w s ∧ GoneInv s).
  { apply (run_Step_invariant (λ s, Inv w s ∧ GoneInv s)) in Hrun; [done| |].
    - intros s1 s2 [HI HG] H. split; [by eapply Inv_Step|].
      destruct HI as [_ _ [Hok _] _ _ _ _]. by eapply GoneInv_Step.
    - split; [by apply Inv_spawn|]. unfold GoneInv. simpl. done. }
  destruct HI as [[_ (_ & _ & _ & Hwt & Hrem & _) (_ & Hrm & _) _ _ _ _] HG].
  unfold GoneInv in HG. rewrite Hrm. split_and?.
  - done.
  - destruct (relay s); simpl; lia.
  - intros Hpos. destruct (watching s) eqn:Hwatch; [|done].
    destruct Hwt as (_ & Hr0 & _); [done|].
    destruct (relay s); simpl in *; try lia; by apply HG.
Qed.

(** The witness of [RemoveWatcher_at_most_twice]: after an overflow both
    the handler and the relay goroutine have called [RemoveWatcher]. *)
Lemma RemoveWatcher_at_most_twice_witness :
  let sched := [Notify grant_a; Notify grant_a; Notify grant_a;
                Relay ArmSend; Relay ArmError; Relay ArmSend;
                Relay ArmSend; Relay ArmSend] in
  ∃ s, run sched (spawn small projects) = Some s
       ∧ removals ByIntake (trace s) + removals ByRelay (trace s) = 2
       ∧ watching s = false.
Proof.
  intros sched.
  destruct (run sched (spawn small projects)) as [s|] eqn:Hrun;
    [|vm_compute in Hrun; discriminate].
  exists s. split; [done|].
  destruct (RemoveWatcher_at_most_twice small projects sched s small_fresh Hrun)
    as (_ & _ & H).
  assert (Hn : removals ByIntake (trace s) + removals ByRelay (trace s) = 2)
    by (vm_compute in Hrun; by simplify_eq).
  split; [exact Hn|]. apply H. lia.
Defined.

(** ** Who touches what *)

(** X14: the handler and the relay goroutine keep to their sides.  A call of the
    handler delivers nothing and leaves the position of the relay
    goroutine, [outgoing], [userStop] and [initialProjects] alone; a step of
    the relay goroutine enqueues nothing and leaves [knownProjects] and
    [userStop] alone; [Stop] touches [userStop] only, and a change of the
    project cache nothing of the watcher. *)
Theorem each_role_keeps_to_its_state (a : Action) (s s' : World) :
  step a s = Some s' →
  initialProjects (watcher s') = initialProjects (watcher s)
  ∧ username (watcher s') = username (watcher s)
  ∧ groups (watcher s') = groups (watcher s)
  ∧ match a with
    | Notify _ =>
        received (trace s') = received (trace s)
        ∧ closings (trace s') = closings (trace s)
        ∧ relay s' = relay s
        ∧ outgoing (watcher s') = outgoing (watcher s)
        ∧ userStop (watcher s') = userStop (watcher s)
    | Relay _ =>
        enqueued (trace s') = enqueued (trace s)
        ∧ knownProjects (watcher s') = knownProjects (watcher s)
        ∧ userStop (watcher s') = userStop (watcher s)
        ∧ projectCache s' = projectCache s
    | CallStop =>
        trace s' = trace s
        ∧ relay s' = relay s
        ∧ watching s' = watching s
        ∧ set_userStop (userStop (watcher s)) (watcher s') = watcher s
    | CacheUpdate m =>
        s' = set_projectCache m s
    end.
Proof.
  intros Hs. destruct a as [c| |arm|m]; simpl in Hs.
  - destruct (watching s), (dispatcher s); simplify_eq.
    unfold handle, GroupMembershipChanged, enqueue_or_fail, send_cacheError,
      RemoveWatcher.
    repeat case_match; simpl; autorewrite with trace; simpl;
      autorewrite with trace; simpl; rewrite ?Nat.add_0_r; done.
  - unfold Stop, Chan.close in Hs.
    destruct (Chan.closed (userStop (watcher s))) eqn:Hc; simpl in Hs;
      injection Hs as <-; destruct s as [[]]; simpl in *; done.
  - unfold Watch_step, emit, recv_cacheError, send_cacheError, Chan.try_recv,
      Chan.close, RemoveWatcher in Hs.
    repeat (case_match; simplify_eq; simpl in * ).
    all: try (injection Hs as <-).
    all: simpl; autorewrite with trace; simpl; done.
  - by simplify_eq.
Qed.

Lemma each_role_keeps_to_its_state_witness :
  ∃ s', step (Notify grant_a) (spawn small projects) = Some s'
        ∧ relay s' = AtInitial 0
        ∧ outgoing (watcher s') = Chan.make 0.
Proof.
  destruct (step (Notify grant_a) (spawn small projects)) as [s'|] eqn:Hs;
    [|vm_compute in Hs; discriminate].
  exists s'. split; [done|].
  destruct (each_role_keeps_to_its_state _ _ _ Hs) as (_ & _ & _ & _ & _ & H1 & H2 & _).
  split; [exact H1 | exact H2].
Defined.

(** ** [Stop] against the error *)

(** X15: when the relay goroutine is at its [select] with [userStop] closed and
    an error in [cacheError], both arms are ready and [select] takes either:
    down one way [Watch] returns without a word, down the other the consumer
    gets the error event. *)
Theorem Stop_races_with_error (s : World) (m : string) :
  relay s = AtSelect →
  stopped s = true →
  Chan.buf (cacheError (watcher s)) = [m] →
  dispatcher s = Idle →
  Chan.closed (outgoing (watcher s)) = false →
  (∃ s1, run [Relay ArmStop] s = Some s1
         ∧ relay s1 = DeferRemove
         ∧ trace s1 = trace s
         ∧ Chan.buf (cacheError (watcher s1)) = [m])
  ∧ (∃ s2, run [Relay ArmError; Relay ArmSend] s = Some s2
           ∧ relay s2 = DeferRemove
           ∧ trace s2 = trace s ++ [ObsDeliver (makeErrorEvent m)]
           ∧ Chan.buf (cacheError (watcher s2)) = [])
  ∧ (∃ s3, run [Relay ArmError; Relay ArmStop] s = Some s3
           ∧ relay s3 = DeferRemove
           ∧ trace s3 = trace s
           ∧ Chan.buf (cacheError (watcher s3)) = []).
Proof.
  unfold stopped. intros Hpc Hst Hce Hd Hog. split_and?.
  - simpl. unfold Watch_step. rewrite Hpc, Hst. simpl.
    eexists. split; [reflexivity|]. done.
  - simpl. unfold Watch_step, recv_cacheError, Chan.try_recv.
    rewrite Hpc, Hce. simpl. rewrite Hd. simpl.
    unfold Watch_step, emit. simpl. rewrite Hog. simpl.
    eexists. split; [reflexivity|]. done.
  - simpl. unfold Watch_step, recv_cacheError, Chan.try_recv.
    rewrite Hpc, Hce. simpl. rewrite Hd. simpl.
    unfold Watch_step, emit. simpl. rewrite Hst. simpl.
    eexists. split; [reflexivity|]. done.
Qed.

(** The witness of [Stop_races_with_error]: the buffer of two overflows,
    the relay goroutine gets to its [select], and [Stop] is called. *)
Lemma Stop_races_with_error_witness :
  let sched := [Notify grant_a; Notify grant_a; Notify grant_a;
                Relay ArmSend; CallStop] in
  ∃ s s1 s2,
    run sched (spawn small projects) = Some s
    ∧ run [Relay ArmStop] s = Some s1
    ∧ received (trace s1) = []
    ∧ run [Relay ArmError; Relay ArmSend] s = Some s2
    ∧ received (trace s2) = [makeErrorEvent add_timeout].
Proof.
  intros sched.
  destruct (run sched (spawn small projects)) as [s|] eqn:Hrun;
    [|vm_compute in Hrun; discriminate].
  assert (Hs : relay s = AtSelect ∧ stopped s = true
               ∧ Chan.buf (cacheError (watcher s)) = [add_timeout]
               ∧ dispatcher s = Idle
               ∧ Chan.closed (outgoing (watcher s)) = false
               ∧ received (trace s) = [])
    by (vm_compute in Hrun; by simplify_eq).
  destruct Hs as (H1 & H2 & H3 & H4 & H5 & H6).
  destruct (Stop_races_with_error s add_timeout H1 H2 H3 H4 H5)
    as ((s1 & R1 & _ & T1 & _) & (s2 & R2 & _ & T2 & _) & _).
  exists s, s1, s2. split_and?; try done.
  - by rewrite T1.
  - rewrite T2. autorewrite with trace. simpl. by rewrite H6.
Defined.

(** ** The high-water mark *)

(** The world with the high-water mark put aside. *)
Definition without_HWM (s : World) : World := set_watchChannelHWM 0 s.

(** X16: the high-water mark is for the log only: a step goes through or not,
    and leaves the same world but for the mark, whatever the mark was. *)
Theorem watchChannelHWM_is_diagnostic (a : Action) (s1 s2 : World) :
  without_HWM s1 = without_HWM s2 →
  without_HWM <$> step a s1 = without_HWM <$> step a s2.
Proof.
  destruct s1 as [w c b r d h1 t], s2 as [w2 c2 b2 r2 d2 h2 t2].
  unfold without_HWM, set_watchChannelHWM. simpl. intros H.
  injection H as <- <- <- <- <- <-.
  destruct a as [ch| |arm|m]; simpl.
  - destruct b, d; simpl; try done. f_equal.
    unfold handle, GroupMembershipChanged, enqueue_or_fail, send_cacheError,
      RemoveWatcher; simpl.
    repeat case_match; simpl; done.
  - unfold Stop, Chan.close. simpl. repeat case_match; simpl; done.
  - unfold Watch_step, emit, recv_cacheError, send_cacheError, RemoveWatcher,
      Chan.close, Chan.try_recv; simpl.
    repeat (case_match; simplify_eq; simpl in * ); try done.
  - done.
Qed.

Lemma watchChannelHWM_is_diagnostic_witness :
  without_HWM <$> step (Relay ArmIncoming)
                    (set_watchChannelHWM 7 (handle (set_relay AtSelect
                                                      (spawn small projects)) grant_a))
  = without_HWM <$> step (Relay ArmIncoming)
                      (handle (set_relay AtSelect (spawn small projects)) grant_a).
Proof.
  apply watchChannelHWM_is_diagnostic. reflexivity.
Defined.
